(** * Media extractor of the Instagram inspection service (src/main.py)

    A shallow embedding of [extract_meta_tags] and [instagram_inspect]
    together with the regular expressions they are built on, and the
    properties of the specification that concern them.

    Conventions.
    - A Python [str] is a list of Unicode code points ([N]); [py] turns an
      ASCII literal into one.
    - The patterns of the source are values of [regex]; [exec] is a
      backtracking matcher with the priorities of Python's [re] (left
      alternative first, greedy repetition), so match results, group
      contents and the spans found by [findall] / [finditer] are those of
      the source.
    - Library functions whose behaviour rests on large Unicode or HTML
      tables ([str.lower], [html.unescape], the names behind backslash-N of the
      [unicode_escape] codec) are fields of the class [PyLib]; every general
      theorem holds for all of them.
    - The validation that pydantic attaches to a field of type [HttpUrl]
      is the field [http_url] of the same class: the text of the validated
      URL, or nothing when pydantic raises [ValidationError]. The handler is
      modelled with it at the three places where it acts: the request body,
      the construction of each [MediaItem], and the comparison of a stored
      url with a string. *)

From Stdlib Require Import ZArith NArith Ascii String List Lia.
From stdpp Require Import base option list gmap strings.

Open Scope N_scope.

(** ** Strings *)

Module Str.

Abbreviation str := (list N).

(** An ASCII literal as a Python string. *)
Definition py (s : string) : str :=
  N_of_ascii <$> list_ascii_of_string s.

(** The double quote, which cannot be written inside a literal here. *)
Definition DQ : str := [34].

Definition str_eqb (a b : str) : bool := bool_decide (a = b).

Fixpoint starts_with (p s : str) : bool :=
  match p, s with
  | [], _ => true
  | a :: p', b :: s' => (a =? b) && starts_with p' s'
  | _ :: _, [] => false
  end.

(** [s.replace(old, new)] for a non-empty [old]: occurrences are replaced
    from the left and do not overlap. [skip] counts the characters of an
    occurrence that are still to be dropped. *)
Fixpoint replace_from (old new : str) (skip : nat) (s : str) : str :=
  match s with
  | [] => []
  | c :: s' =>
      match skip with
      | S n => replace_from old new n s'
      | O =>
          if starts_with old s
          then new ++ replace_from old new (pred (length old)) s'
          else c :: replace_from old new O s'
      end
  end.

Definition replace (old new s : str) : str := replace_from old new O s.

(** Python truthiness of a string. *)
Definition truthy (s : str) : bool :=
  match s with [] => false | _ :: _ => true end.

(** [a or b] on values that are [None] or a string. *)
Definition py_or (a b : option str) : option str :=
  match a with
  | Some s => if truthy s then a else b
  | None => b
  end.

(** Truthiness of a value that is [None] or a string. *)
Definition truthy_opt (a : option str) : bool :=
  match a with Some s => truthy s | None => false end.

End Str.
Export Str.

(** ** Regular expressions with the matching order of Python's [re] *)

Module Re.

Inductive regex : Type :=
| Eps
| Chr (p : N -> bool)
| Seq (r1 r2 : regex)
| Alt (r1 r2 : regex)
| Opt (r : regex)
| Rep (p : N -> bool) (lo : nat) (hi : option nat)
| Grp (i : nat) (r : regex).

Abbreviation groups := (gmap nat (list N)).

Definition may_take (hi : option nat) : bool :=
  match hi with Some O => false | _ => true end.

Definition one_less (hi : option nat) : option nat :=
  match hi with Some n => Some (pred n) | None => None end.

(** Greedy repetition of a character class, between [lo] and [hi] times:
    the longest run is tried first, then shorter ones. *)
Fixpoint rep {A} (p : N -> bool) (lo : nat) (hi : option nat)
    (s : str) (k : str -> option A) : option A :=
  let stop := match lo with O => k s | S _ => None end in
  match s with
  | c :: s' =>
      if p c && may_take hi then
        match rep p (pred lo) (one_less hi) s' k with
        | Some x => Some x
        | None => stop
        end
      else stop
  | [] => stop
  end.

(** [exec r s g k]: match [r] at the head of [s] with the groups [g]
    recorded so far, and hand what is left to the continuation [k]; the
    first success in priority order is the result. *)
Fixpoint exec {A} (r : regex) (s : str) (g : groups)
    (k : str -> groups -> option A) : option A :=
  match r with
  | Eps => k s g
  | Chr p =>
      match s with
      | c :: s' => if p c then k s' g else None
      | [] => None
      end
  | Seq r1 r2 => exec r1 s g (fun s' g' => exec r2 s' g' k)
  | Alt r1 r2 =>
      match exec r1 s g k with
      | Some x => Some x
      | None => exec r2 s g k
      end
  | Opt r1 =>
      match exec r1 s g k with
      | Some x => Some x
      | None => k s g
      end
  | Rep p lo hi => rep p lo hi s (fun s' => k s' g)
  | Grp i r1 =>
      exec r1 s g
        (fun s' g' => k s' (<[i := take (length s - length s') s]> g'))
  end.

(** [pattern.match(s)]: the rest of the string and the groups, when the
    pattern matches at position 0. *)
Definition re_match (r : regex) (s : str) : option (str * groups) :=
  exec r s ∅ (fun s' g => Some (s', g)).

(** [m.group(i)], with the empty string for a group that took no part
    (as [findall] reports it). *)
Definition group (g : groups) (i : nat) : str := default [] (g !! i).

(** The matches of [r] in [s] from left to right, without overlap, as
    [finditer] yields them. The patterns of this program consume at
    least one character, so the search resumes where the match ended. *)
Fixpoint scan (r : regex) (skip : nat) (s : str) : list groups :=
  match s with
  | [] => []
  | _ :: s' =>
      match skip with
      | S n => scan r n s'
      | O =>
          match re_match r s with
          | Some (rest, g) => g :: scan r (pred (length s - length rest)) s'
          | None => scan r O s'
          end
      end
  end.

Definition finditer (r : regex) (s : str) : list groups := scan r O s.

(** [pattern.findall(s)] for a pattern with two groups. *)
Definition findall (r : regex) (s : str) : list (str * str) :=
  (fun g => (group g 1, group g 2)) <$> finditer r s.

(** [pattern.sub(f, s)]. *)
Fixpoint sub_from (r : regex) (f : groups -> str) (skip : nat) (s : str) : str :=
  match s with
  | [] => []
  | c :: s' =>
      match skip with
      | S n => sub_from r f n s'
      | O =>
          match re_match r s with
          | Some (rest, g) => f g ++ sub_from r f (pred (length s - length rest)) s'
          | None => c :: sub_from r f O s'
          end
      end
  end.

Definition sub (r : regex) (f : groups -> str) (s : str) : str :=
  sub_from r f O s.

(** *** Pattern syntax *)

Definition just (c : N) : N -> bool := fun x => x =? c.
Definition between (a b : N) : N -> bool := fun x => (a <=? x) && (x <=? b).
Definition one_of (l : list N) : N -> bool := fun x => existsb (N.eqb x) l.
Definition none_of (l : list N) : N -> bool := fun x => negb (existsb (N.eqb x) l).

(** Lower case of an ASCII letter; any other code point is unchanged. *)
Definition ascii_lower (c : N) : N :=
  if between 65 90 c then c + 32 else c.

(** A literal under [re.IGNORECASE]; used for ASCII letters other than
    i, k and s, which are the only ones with further case variants. *)
Definition is_nocase (c : N) : N -> bool := fun x => ascii_lower x =? ascii_lower c.

Fixpoint seq_of (l : list regex) : regex :=
  match l with
  | [] => Eps
  | [r] => r
  | r :: l' => Seq r (seq_of l')
  end.

Definition lit (s : string) : regex := seq_of (Chr ∘ just <$> py s).
Definition lit_nocase (s : string) : regex := seq_of (Chr ∘ is_nocase <$> py s).

Definition many1 (p : N -> bool) : regex := Rep p 1 None.
Definition many (p : N -> bool) : regex := Rep p 0 None.

End Re.
Export Re.

(** ** The URL pattern (src/main.py, line 85) *)

(** [[A-Za-z0-9_-]] *)
Definition ident_char (c : N) : bool :=
  between 65 90 c || between 97 122 c || between 48 57 c || just 95 c || just 45 c.

(** [^(https?://)?(www\.)?instagram\.com/(p|reel|reels|tv)/[A-Za-z0-9_-]+/?],
    compiled without flags. The anchor [^] is the start of the string, where
    [match] begins. *)
Definition INSTAGRAM_URL_RE : regex :=
  seq_of
    [ Opt (Grp 1 (seq_of [lit "http"; Opt (Chr (just 115)); lit "://"]));
      Opt (Grp 2 (lit "www."));
      lit "instagram.com/";
      Grp 3 (Alt (lit "p") (Alt (lit "reel") (Alt (lit "reels") (lit "tv"))));
      lit "/";
      many1 ident_char;
      Opt (Chr (just 47)) ].

Definition url_accepted (url : str) : bool :=
  bool_decide (is_Some (re_match INSTAGRAM_URL_RE url)).

(** ** Exceptions of the codecs and of pydantic *)

Inductive exn : Type :=
| UnicodeEncodeError
| UnicodeDecodeError
| ValidationError.

Inductive res (A : Type) : Type :=
| Ret (a : A)
| Raise (e : exn).
Arguments Ret {A} a.
Arguments Raise {A} e.

#[global] Instance res_ret : MRet res := fun A a => Ret a.
#[global] Instance res_bind : MBind res := fun A B f m =>
  match m with Ret a => f a | Raise e => Raise e end.
#[global] Instance res_fmap : FMap res := fun A B f m =>
  match m with Ret a => Ret (f a) | Raise e => Raise e end.

(** ** Library functions *)

(** The parts of the libraries that rest on tables or on a parser of
    their own: [s.lower()], [html.unescape(s)], the character names of
    [unicodedata] that the [unicode_escape] codec looks up, and the
    validation of a string against pydantic's [HttpUrl]. [http_url s] is
    the text [str(u)] of the URL object [u] that validation yields, or
    [None] when validation raises. Only [http] and [https] are allowed
    schemes of [HttpUrl] and a URL of either is written with the scheme in
    lower case, a colon and two slashes, which is all that is assumed of
    it. *)
Class PyLib : Type := {
  lower : str -> str;
  unescape : str -> str;
  ucn_getcode : str -> option N;
  http_url : str -> option str;
  http_url_scheme : forall s u : str,
    http_url s = Some u ->
    exists rest, u = py "http://" ++ rest \/ u = py "https://" ++ rest
}.

Module Codec.

(** [s.encode('utf-8')]: a lone surrogate cannot be encoded. *)
Definition utf8_char (c : N) : res str :=
  if c <? 0x80 then Ret [c]
  else if c <? 0x800 then Ret [0xC0 + c / 64; 0x80 + c mod 64]
  else if (0xD800 <=? c) && (c <=? 0xDFFF) then Raise UnicodeEncodeError
  else if c <? 0x10000 then
    Ret [0xE0 + c / 4096; 0x80 + (c / 64) mod 64; 0x80 + c mod 64]
  else if c <=? 0x10FFFF then
    Ret [0xF0 + c / 262144; 0x80 + (c / 4096) mod 64;
         0x80 + (c / 64) mod 64; 0x80 + c mod 64]
  else Raise UnicodeEncodeError.

Fixpoint encode_utf8 (s : str) : res str :=
  match s with
  | [] => Ret []
  | c :: s' => b ← utf8_char c; bs ← encode_utf8 s'; Ret (b ++ bs)
  end.

(** Where the [unicode_escape] decoder stands between two bytes. *)
Inductive ue_state : Type :=
| Plain
| Esc
| Oct (more : nat) (acc : N)
| Hex (more : nat) (acc : N)
| NameOpen
| Name (acc : str).

Definition hex_value (c : N) : option N :=
  if between 48 57 c then Some (c - 48)
  else if between 97 102 c then Some (c - 87)
  else if between 65 70 c then Some (c - 55)
  else None.

Definition is_octal (c : N) : bool := between 48 55 c.

(** The one-character escapes of the codec. *)
Definition simple_escape (c : N) : option N :=
  if c =? 92 then Some 92          (* backslash *)
  else if c =? 39 then Some 39     (* single quote *)
  else if c =? 34 then Some 34     (* double quote *)
  else if c =? 98 then Some 8      (* b *)
  else if c =? 102 then Some 12    (* f *)
  else if c =? 116 then Some 9     (* t *)
  else if c =? 110 then Some 10    (* n *)
  else if c =? 114 then Some 13    (* r *)
  else if c =? 118 then Some 11    (* v *)
  else if c =? 97 then Some 7      (* a *)
  else None.

(** [b.decode('unicode_escape')], strict: a byte outside an escape is
    the code point of the same number; an unknown escape keeps its
    backslash; a truncated or malformed escape raises. *)
Fixpoint ue_run {lib : PyLib} (st : ue_state) (s : str) : res str :=
  match s with
  | [] =>
      match st with
      | Plain => Ret []
      | Oct _ acc => Ret [acc]
      | Esc | Hex _ _ | NameOpen | Name _ => Raise UnicodeDecodeError
      end
  | c :: s' =>
      let plain :=
        if c =? 92 then ue_run Esc s' else cons c <$> ue_run Plain s' in
      match st with
      | Plain => plain
      | Esc =>
          if c =? 10 then ue_run Plain s'
          else match simple_escape c with
          | Some x => cons x <$> ue_run Plain s'
          | None =>
              if is_octal c then ue_run (Oct 2 (c - 48)) s'
              else if c =? 120 then ue_run (Hex 2 0) s'
              else if c =? 117 then ue_run (Hex 4 0) s'
              else if c =? 85 then ue_run (Hex 8 0) s'
              else if c =? 78 then ue_run NameOpen s'
              else (fun r => 92 :: c :: r) <$> ue_run Plain s'
          end
      | Oct more acc =>
          match more with
          | S n =>
              if is_octal c then
                match n with
                | O => cons (acc * 8 + (c - 48)) <$> ue_run Plain s'
                | S _ => ue_run (Oct n (acc * 8 + (c - 48))) s'
                end
              else cons acc <$> plain
          | O => cons acc <$> plain
          end
      | Hex more acc =>
          match hex_value c with
          | None => Raise UnicodeDecodeError
          | Some d =>
              let ch := acc * 16 + d in
              match more with
              | S (S n) => ue_run (Hex (S n) ch) s'
              | _ =>
                  if ch <=? 0x10FFFF then cons ch <$> ue_run Plain s'
                  else Raise UnicodeDecodeError
              end
          end
      | NameOpen =>
          if c =? 123 then ue_run (Name []) s' else Raise UnicodeDecodeError
      | Name acc =>
          if c =? 125 then
            match acc with
            | [] => Raise UnicodeDecodeError
            | _ :: _ =>
                match ucn_getcode (rev acc) with
                | Some ch => cons ch <$> ue_run Plain s'
                | None => Raise UnicodeDecodeError
                end
            end
          else ue_run (Name (c :: acc)) s'
      end
  end.

Definition decode_unicode_escape {lib : PyLib} (b : str) : res str :=
  ue_run Plain b.

End Codec.
Export Codec.

(** ** A model of the library for ASCII pages *)

Module CPython.

(** [s.lower()] on text whose cased letters are ASCII. *)
Definition ascii_str_lower (s : str) : str := ascii_lower <$> s.

(** [_invalid_charrefs] of [html/__init__.py]. *)
Definition invalid_charrefs (n : N) : option N :=
  let t : list (N * N) :=
    [ (0x00, 0xfffd); (0x0d, 0x0d); (0x80, 0x20ac); (0x81, 0x81);
      (0x82, 0x201a); (0x83, 0x0192); (0x84, 0x201e); (0x85, 0x2026);
      (0x86, 0x2020); (0x87, 0x2021); (0x88, 0x02c6); (0x89, 0x2030);
      (0x8a, 0x0160); (0x8b, 0x2039); (0x8c, 0x0152); (0x8d, 0x8d);
      (0x8e, 0x017d); (0x8f, 0x8f); (0x90, 0x90); (0x91, 0x2018);
      (0x92, 0x2019); (0x93, 0x201c); (0x94, 0x201d); (0x95, 0x2022);
      (0x96, 0x2013); (0x97, 0x2014); (0x98, 0x02dc); (0x99, 0x2122);
      (0x9a, 0x0161); (0x9b, 0x203a); (0x9c, 0x0153); (0x9d, 0x9d);
      (0x9e, 0x017e); (0x9f, 0x0178) ] in
  snd <$> find (fun e => fst e =? n) t.

(** [_invalid_codepoints] of [html/__init__.py]. *)
Definition invalid_codepoint (n : N) : bool :=
  between 0x1 0x8 n || between 0xe 0x1f n || between 0x7f 0x9f n
  || between 0xfdd0 0xfdef n || (n =? 0xb)
  || ((n <=? 0x10ffff) && (0xfffe <=? n mod 0x10000)).

Definition digit (c : N) : bool := between 48 57 c.
Definition hexdigit (c : N) : bool :=
  between 48 57 c || between 97 102 c || between 65 70 c.

(** [_charref]:
    [&(#[0-9]+;?|#[xX][0-9a-fA-F]+;?|[^\t\n\f <&#;]{1,32};?)] *)
Definition charref : regex :=
  Seq (Chr (just 38))
    (Grp 1
       (Alt (seq_of [Chr (just 35); many1 digit; Opt (Chr (just 59))])
       (Alt (seq_of [Chr (just 35); Chr (one_of [120; 88]); many1 hexdigit;
                     Opt (Chr (just 59))])
            (seq_of [Rep (none_of [9; 10; 12; 32; 60; 38; 35; 59]) 1 (Some 32%nat);
                     Opt (Chr (just 59))])))).

(** [int(digits, base)] *)
Definition int_of (base : N) (s : str) : N :=
  foldl (fun n c => n * base + default 0 (hex_value c)) 0 s.

Fixpoint lstrip_char (c : N) (s : str) : str :=
  match s with
  | x :: s' => if x =? c then lstrip_char c s' else s
  | [] => []
  end.

(** [s.rstrip(';')] *)
Definition rstrip_semicolon (s : str) : str :=
  rev (lstrip_char 59 (rev s)).

(** The loop [for x in range(len(s)-1, 1, -1)] of [_replace_charref]. *)
Fixpoint longest_name (html5 : str -> option str) (s : str) (x : nat) : option str :=
  match x with
  | S x' =>
      if (2 <=? x)%nat then
        match html5 (take x s) with
        | Some v => Some (v ++ drop x s)
        | None => longest_name html5 s x'
        end
      else None
  | O => None
  end.

(** [_replace_charref], on the text of group 1. *)
Definition replace_charref (html5 : str -> option str) (s : str) : str :=
  match s with
  | 35 :: s1 =>
      let num :=
        match s1 with
        | c :: s2 =>
            if one_of [120; 88] c then int_of 16 (rstrip_semicolon s2)
            else int_of 10 (rstrip_semicolon s1)
        | [] => 0
        end in
      match invalid_charrefs num with
      | Some c => [c]
      | None =>
          if (between 0xD800 0xDFFF num) || (0x10FFFF <? num) then [0xFFFD]
          else if invalid_codepoint num then []
          else [num]
      end
  | _ =>
      match html5 s with
      | Some v => v
      | None =>
          match longest_name html5 s (pred (length s)) with
          | Some v => v
          | None => 38 :: s
          end
      end
  end.

(** [html.unescape] over the table [html5] of named references. *)
Definition html_unescape (html5 : str -> option str) (s : str) : str :=
  if negb (existsb (N.eqb 38) s) then s
  else sub charref (fun g => replace_charref html5 (group g 1)) s.

(** The entries of [html.entities.html5] for the references of XML. *)
Definition html5_xml (name : str) : option str :=
  let t : list (string * N) :=
    [ ("amp;", 38); ("amp", 38); ("lt;", 60); ("lt", 60); ("gt;", 62);
      ("gt", 62); ("quot;", 34); ("quot", 34); ("apos;", 39) ]%string in
  (fun e => [snd e]) <$> find (fun e => str_eqb (py (fst e)) name) t.

(** *** [HttpUrl] on plain addresses

    What pydantic 2 answers for the addresses of the examples: a string
    of at most 2083 characters made of [http://] or [https://] in either
    case, a host name of letters, digits, hyphens and dots whose last
    label is not a number, and then nothing or a path and query of
    characters that the URL parser neither escapes nor rewrites, no
    segment of the path standing for dots only. The scheme and the host
    come back in lower case, a missing path is written as a slash, and the
    rest is kept. A string without scheme, the empty string among them,
    and a relative address are refused. The definition is meant for such
    strings only. *)

Fixpoint strip_nocase (p s : str) : option str :=
  match p, s with
  | [], _ => Some s
  | a :: p', b :: s' => if ascii_lower b =? a then strip_nocase p' s' else None
  | _ :: _, [] => None
  end.

Fixpoint span (p : N -> bool) (s : str) : str * str :=
  match s with
  | c :: s' => if p c then let '(a, b) := span p s' in (c :: a, b) else ([], s)
  | [] => ([], [])
  end.

Definition host_char (c : N) : bool :=
  between 65 90 c || between 97 122 c || between 48 57 c || just 45 c || just 46 c.

(** Letters, digits and [-._~!$&()*+,;=:@%/?]. *)
Definition kept_char (c : N) : bool :=
  between 65 90 c || between 97 122 c || between 48 57 c
  || one_of [45; 46; 95; 126; 33; 36; 38; 40; 41; 42; 43; 44; 59; 61; 58; 64;
             37; 47; 63] c.

(** The host and what follows it, after the scheme. *)
Definition after_scheme (scheme rest : str) : option str :=
  let '(host, tail) := span host_char rest in
  match host with
  | [] => None
  | _ :: _ =>
      match tail with
      | [] => Some (scheme ++ (ascii_lower <$> host) ++ py "/")
      | c :: _ =>
          if (c =? 47) && forallb kept_char tail
          then Some (scheme ++ (ascii_lower <$> host) ++ tail)
          else None
      end
  end.

Definition plain_http_url (s : str) : option str :=
  if (2083 <? length s)%nat then None
  else
    match strip_nocase (py "http://") s with
    | Some rest => after_scheme (py "http://") rest
    | None =>
        match strip_nocase (py "https://") s with
        | Some rest => after_scheme (py "https://") rest
        | None => None
        end
    end.

Lemma after_scheme_prefix (scheme rest u : str) :
  after_scheme scheme rest = Some u -> exists t, u = scheme ++ t.
Proof.
  unfold after_scheme. destruct (span host_char rest) as [host tail].
  destruct host as [|h host]; [discriminate|].
  destruct tail as [|c tail].
  - intros [= <-]. by eexists.
  - destruct ((c =? 47) && forallb kept_char (c :: tail)); [|discriminate].
    intros [= <-]. by eexists.
Qed.

Lemma plain_http_url_scheme (s u : str) :
  plain_http_url s = Some u ->
  exists rest, u = py "http://" ++ rest \/ u = py "https://" ++ rest.
Proof.
  unfold plain_http_url. destruct (2083 <? length s)%nat; [discriminate|].
  destruct (strip_nocase (py "http://") s) as [rest|].
  - intros [t ->]%after_scheme_prefix. exists t. by left.
  - destruct (strip_nocase (py "https://") s) as [rest|]; [|discriminate].
    intros [t ->]%after_scheme_prefix. exists t. by right.
Qed.

(** The library as it behaves on pages whose cased letters are ASCII,
    whose named references are those of XML, whose escapes name no
    character and whose addresses are plain. *)
Definition ascii_page : PyLib := {|
  lower := ascii_str_lower;
  unescape := html_unescape html5_xml;
  ucn_getcode := fun _ => None;
  http_url := plain_http_url;
  http_url_scheme := plain_http_url_scheme
|}.

End CPython.

(** ** Meta tags (src/main.py, lines 88-98) *)

Definition quote_char : N -> bool := one_of [34; 39].
Definition not_quote : N -> bool := none_of [34; 39].
Definition not_gt : N -> bool := none_of [62].

(** [<meta[^>]+property=[Q']([^Q']+)[Q'][^>]+content=[Q']([^Q']+)[Q'][^>]*>]
    with [re.IGNORECASE], where Q stands for the double quote. *)
Definition meta_pattern : regex :=
  seq_of
    [ lit_nocase "<meta"; many1 not_gt; lit_nocase "property=";
      Chr quote_char; Grp 1 (many1 not_quote); Chr quote_char;
      many1 not_gt; lit_nocase "content=";
      Chr quote_char; Grp 2 (many1 not_quote); Chr quote_char;
      many not_gt; Chr (just 62) ].

(** [<meta[^>]+name=[Q']([^Q']+)[Q'][^>]+content=[Q']([^Q']+)[Q'][^>]*>]
    with [re.IGNORECASE], where Q stands for the double quote. *)
Definition name_pattern : regex :=
  seq_of
    [ lit_nocase "<meta"; many1 not_gt; lit_nocase "name=";
      Chr quote_char; Grp 1 (many1 not_quote); Chr quote_char;
      many1 not_gt; lit_nocase "content=";
      Chr quote_char; Grp 2 (many1 not_quote); Chr quote_char;
      many not_gt; Chr (just 62) ].

(** [tags[key.lower()] = unescape(content)] *)
Definition store_tag {lib : PyLib} (tags : gmap (list N) (list N)) (m : list N * list N)
    : gmap (list N) (list N) :=
  <[lower m.1 := unescape m.2]> tags.

Definition extract_meta_tags {lib : PyLib} (html : str) : gmap (list N) (list N) :=
  let tags := foldl store_tag ∅ (findall meta_pattern html) in
  foldl store_tag tags (findall name_pattern html).

(** ** The models of pydantic (src/main.py, lines 21-28) *)

(** A value of type [HttpUrl]: an object of pydantic, not a string;
    [url_text u] is [str(u)]. *)
Record HttpUrl : Type := { url_text : str }.

#[global] Instance HttpUrl_eq_dec : EqDecision HttpUrl.
Proof. solve_decision. Defined.

(** The validation of a string for a field annotated [HttpUrl]. *)
Definition validate {lib : PyLib} (s : str) : res HttpUrl :=
  match http_url s with
  | Some u => Ret {| url_text := u |}
  | None => Raise ValidationError
  end.

(** The same for a field annotated [Optional[HttpUrl]]: [None] is kept, a
    string is validated, the empty string like any other. *)
Definition validate_optional {lib : PyLib} (s : option str)
    : res (option HttpUrl) :=
  match s with
  | None => Ret None
  | Some s' => Some <$> validate s'
  end.

Record InspectRequest : Type := { payload_url : HttpUrl }.

Record MediaItem : Type := {
  type : str;
  url : HttpUrl;
  thumbnail : option HttpUrl
}.

#[global] Instance MediaItem_eq_dec : EqDecision MediaItem.
Proof. solve_decision. Defined.

(** [MediaItem(type=t, url=u, thumbnail=th)]: the fields are validated
    against their annotations, and a value that [HttpUrl] refuses makes the
    call raise [ValidationError]. *)
Definition MediaItem_new {lib : PyLib} (t u : str) (th : option str)
    : res MediaItem :=
  u' ← validate u;
  th' ← validate_optional th;
  Ret {| type := t; url := u'; thumbnail := th' |}.

(** [u != s] for a field [u] of type [HttpUrl] and a [str] [s]. Under
    pydantic 2 the field holds a URL object, whose comparison knows other
    URL objects only; against a string neither side answers, Python falls
    back on identity, and [!=] is [True] whatever the two texts are. *)
Definition url_ne_str (u : HttpUrl) (s : str) : bool := true.

(** ** The handler (src/main.py, lines 101-155) *)

(** [tags.get('og:video') or tags.get('twitter:player:stream')] *)
Definition og_video (tags : gmap (list N) (list N)) : option str :=
  py_or (tags !! py "og:video") (tags !! py "twitter:player:stream").

(** [tags.get('og:image') or tags.get('twitter:image')] *)
Definition og_image (tags : gmap (list N) (list N)) : option str :=
  py_or (tags !! py "og:image") (tags !! py "twitter:image").

(** Lines 123-136: the list before the scan of the page text. *)
Definition primary_media {lib : PyLib} (tags : gmap (list N) (list N))
    : res (list MediaItem) :=
  let media : list MediaItem := [] in
  media ←
    match og_video tags with
    | Some v =>
        if truthy v
        then item ← MediaItem_new (py "video") v (og_image tags);
             Ret (media ++ [item])
        else Ret media
    | None => Ret media
    end;
  match og_image tags with
  | Some i =>
      if truthy i && bool_decide (media = [])
      then item ← MediaItem_new (py "image") i (Some i);
           Ret (media ++ [item])
      else Ret media
  | None => Ret media
  end.

(** [Q(video_url|display_url)Q:Q(https?:\\/\\/[^Q]+)Q], where Q stands for
    the double quote: the value starts with the scheme and two escaped
    slashes, each a backslash and a slash. *)
Definition inline_pattern : regex :=
  seq_of
    [ Chr (just 34); Grp 1 (Alt (lit "video_url") (lit "display_url"));
      Chr (just 34); lit ":"; Chr (just 34);
      Grp 2 (seq_of [lit "http"; Opt (Chr (just 115)); lit ":\/\/";
                     many1 (none_of [34])]);
      Chr (just 34) ].

(** [all(x.url != candidate for x in media)] *)
Definition url_is_new (candidate : str) (media : list MediaItem) : bool :=
  forallb (fun x => url_ne_str (url x) candidate) media.

(** [m.group(2).encode('utf-8').decode('unicode_escape').replace('\\/', '/')] *)
Definition candidate_of {lib : PyLib} (value : str) : res str :=
  b ← encode_utf8 value;
  raw ← decode_unicode_escape b;
  Ret (replace (py "\/") (py "/") raw).

(** Lines 141-149: the body of the loop over the inline matches. *)
Definition inline_step {lib : PyLib} (og_image : option str)
    (media : list MediaItem) (m : gmap nat (list N)) : res (list MediaItem) :=
  let kind := group m 1 in
  candidate ← candidate_of (group m 2);
  if str_eqb kind (py "video_url") then
    if url_is_new candidate media
    then item ← MediaItem_new (py "video") candidate og_image;
         Ret (media ++ [item])
    else Ret media
  else
    if url_is_new candidate media
    then item ← MediaItem_new (py "image") candidate (Some candidate);
         Ret (media ++ [item])
    else Ret media.

(** The loop of line 140 over the matches in document order. *)
Fixpoint inline_loop {lib : PyLib} (og_image : option str)
    (media : list MediaItem) (ms : list (gmap nat (list N))) : res (list MediaItem) :=
  match ms with
  | [] => Ret media
  | m :: ms' =>
      media' ← inline_step og_image media m;
      inline_loop og_image media' ms'
  end.

(** Lines 121-149: the media list assembled from a page. *)
Definition assemble_media {lib : PyLib} (html : str) : res (list MediaItem) :=
  let tags := extract_meta_tags html in
  media ← primary_media tags;
  inline_loop (og_image tags) media (finditer inline_pattern html).

(** *** The upstream site *)

Record Request : Type := {
  req_url : str;
  req_headers : list (string * string);
  req_timeout : Z
}.

(** What [requests.get] does: raise a [RequestException], or return a
    response with a status code and a text. *)
Inductive Upstream : Type :=
| RequestException
| Response (status_code : Z) (text : str).

(** How a call of the route ends: the handler returns the list (sent with
    status 200), raises an [HTTPException], or dies of an exception nobody
    catches; or FastAPI refuses the request body with its own answer 422
    and does not call the handler. *)
Inductive Outcome : Type :=
| Returned (media : list MediaItem)
| HTTPException (status_code : Z) (detail : string)
| Uncaught (e : exn)
| RequestValidationError.

Definition browser_headers : list (string * string) :=
  [ ("User-Agent",
     "Mozilla/5.0 (Windows NT 10.0; Win64; x64) AppleWebKit/537.36 (KHTML, like Gecko) Chrome/117.0 Safari/537.36");
    ("Accept-Language", "en-US,en;q=0.9") ]%string.

Definition get_page (url : str) : Request :=
  {| req_url := url; req_headers := browser_headers; req_timeout := 12 |}.

Definition invalid_url_detail : string :=
  "Please provide a valid Instagram post/reel URL.".
Definition fetch_failed_detail : string :=
  "Failed to fetch the Instagram page.".
Definition upstream_error_detail : string :=
  "Instagram responded with an error.".
Definition no_media_detail : string :=
  "Could not extract media from this URL. It may be private or blocked.".

(** Lines 120-155, once the page text is at hand. *)
Definition parse_page {lib : PyLib} (html : str) : Outcome :=
  match assemble_media html with
  | Raise e => Uncaught e
  | Ret media =>
      match media with
      | [] => HTTPException 422 no_media_detail
      | _ :: _ => Returned media
      end
  end.

(** [str(payload.url)] of line 103. *)
Definition payload_str (payload : InspectRequest) : str :=
  url_text (payload_url payload).

(** [instagram_inspect]: the outcome and the requests sent to [net], the
    rest of the world as [requests.get] sees it. *)
Definition instagram_inspect {lib : PyLib} (net : Request -> Upstream)
    (payload : InspectRequest) : Outcome * list Request :=
  let url := payload_str payload in
  if negb (url_accepted url) then (HTTPException 400 invalid_url_detail, [])
  else
    let req := get_page url in
    match net req with
    | RequestException => (HTTPException 502 fetch_failed_detail, [req])
    | Response status_code text =>
        if negb (status_code =? 200)%Z
        then (HTTPException status_code upstream_error_detail, [req])
        else (parse_page text, [req])
    end.

(** The route of lines 101-102 for a request body whose field [url] is the
    string [s]: FastAPI builds the [InspectRequest] first, and when that
    raises it answers by itself and the handler does not run. *)
Definition post_instagram_inspect {lib : PyLib} (net : Request -> Upstream)
    (s : str) : Outcome * list Request :=
  match validate s with
  | Ret u => instagram_inspect net {| payload_url := u |}
  | Raise _ => (RequestValidationError, [])
  end.

(** ** Items and pages used in the statements *)

Definition video_item (u : HttpUrl) (thumb : option HttpUrl) : MediaItem :=
  {| type := py "video"; url := u; thumbnail := thumb |}.

Definition image_item (u : HttpUrl) : MediaItem :=
  {| type := py "image"; url := u; thumbnail := Some u |}.

(** The item that line 146 or line 149 builds for a match of the given
    kind, once its fields are validated. *)
Definition inline_item (thumb : option HttpUrl) (kind : str) (u : HttpUrl)
    : MediaItem :=
  if str_eqb kind (py "video_url") then video_item u thumb
  else image_item u.

(** What the claims say of each returned item, [thumb] being the primary
    image of the page as a URL. *)
Definition item_shape (thumb : option HttpUrl) (x : MediaItem) : Prop :=
  (type x = py "video" ∨ type x = py "image") ∧
  (type x = py "image" → thumbnail x = Some (url x)) ∧
  (type x = py "video" → thumbnail x = thumb).

(** The URL object with the given text. *)
Definition Url (s : string) : HttpUrl := {| url_text := py s |}.

Module Page.

(** A meta element with its attributes in double quotes. *)
Definition meta_tag (attr key content : string) : str :=
  py "<meta " ++ py attr ++ py "=" ++ DQ ++ py key ++ DQ
    ++ py " content=" ++ DQ ++ py content ++ DQ ++ py ">".

(** A key and a string value as they stand in inline JSON. *)
Definition json_pair (key value : string) : str :=
  DQ ++ py key ++ DQ ++ py ":" ++ DQ ++ py value ++ DQ.

Definition post_url : str := py "https://www.instagram.com/p/abc/".

(** The request body with that address, once validated. *)
Definition post : InspectRequest :=
  {| payload_url := Url "https://www.instagram.com/p/abc/" |}.

(** The pages of section 8 of the specification. *)
Definition video_and_thumb : str :=
  meta_tag "property" "og:video" "https://x/video.mp4"
    ++ meta_tag "property" "og:image" "https://x/thumb.jpg".

Definition only_image : str :=
  meta_tag "property" "og:image" "https://x/pic.jpg".


Definition repeated_display : str :=
  json_pair "display_url" "https:\/\/x\/d.jpg"
    ++ py " " ++ json_pair "display_url" "https:\/\/x\/d.jpg".

Definition no_media : str := py "<html><body>Login</body></html>".

(** A stream tag whose content is a reference to the control character
    U+0001, which [html.unescape] drops, next to a thumbnail. *)
Definition empty_stream : str :=
  meta_tag "name" "twitter:player:stream" "&#1;"
    ++ meta_tag "property" "og:image" "https://x/thumb.jpg".

(** An image tag whose content unescapes to the empty string. *)
Definition empty_image : str :=
  meta_tag "name" "twitter:image" "&#1;".

(** The same key three times: twice as a property, then as a name. *)
Definition overwritten : str :=
  meta_tag "property" "og:image" "https://x/a.jpg"
    ++ meta_tag "property" "OG:Image" "https://x/b.jpg"
    ++ meta_tag "name" "og:image" "https://x/c.jpg".

(** A video from the tags, then inline values: one escaped, one that
    repeats the tag's url, one given twice under both keys. *)
Definition mixed : str :=
  meta_tag "property" "og:video" "https://x/video.mp4"
    ++ meta_tag "name" "twitter:image" "https://x/thumb.jpg"
    ++ json_pair "video_url" "https:\/\/x\/video.mp4"
    ++ json_pair "display_url" "https:\/\/x\/d.jpg?a=1\u0026b=2"
    ++ json_pair "video_url" "https:\/\/x\/d.jpg?a=1\u0026b=2"
    ++ json_pair "video_url" "https:\/\/x\/v2.mp4".

(** A video with a thumbnail whose tag is a reference to U+0001, so that
    its value is the empty string. *)
Definition empty_thumbnail : str :=
  meta_tag "property" "og:video" "https://x/video.mp4"
    ++ meta_tag "name" "twitter:image" "&#1;".

(** Tags whose values are addresses without scheme and host. *)
Definition relative_video : str :=
  meta_tag "property" "og:video" "/media/video.mp4"
    ++ meta_tag "property" "og:image" "https://x/thumb.jpg".

Definition relative_image : str :=
  meta_tag "property" "og:image" "/relative.jpg".

(** Tags whose values name the host in upper case. *)
Definition upper_case_host : str :=
  meta_tag "property" "og:video" "https://X/video.mp4"
    ++ meta_tag "property" "og:image" "https://X/thumb.jpg".

Definition upper_case_image : str :=
  meta_tag "property" "og:image" "https://X/pic.jpg".

(** A site that answers every request with the same status and text. *)
Definition site (status_code : Z) (text : str) : Request -> Upstream :=
  fun _ => Response status_code text.

End Page.

(** ** The URL shape of the specification (section 4.1)

    Written from the words of the specification, not from the pattern:
    an optional scheme, an optional [www.], the host [instagram.com], a
    path that begins with [/p/], [/reel/], [/reels/] or [/tv/], and an
    identifier of letters, digits, underscore or hyphen. Only a prefix is
    looked at, so the optional trailing slash and whatever follows are
    free. [nocase] says whether letters are compared without regard to
    case, as the specification has it. *)

Module Spec.

Definition is_letter (c : N) : bool := between 65 90 c || between 97 122 c.
Definition is_digit (c : N) : bool := between 48 57 c.
Definition is_ident_char (c : N) : bool :=
  is_letter c || is_digit c || (c =? 95) || (c =? 45).

Definition same_char (nocase : bool) (a b : N) : bool :=
  if nocase then ascii_lower a =? ascii_lower b else a =? b.

(** What is left of [s] after the prefix [p]. *)
Fixpoint strip (nocase : bool) (p s : str) : option str :=
  match p, s with
  | [], _ => Some s
  | a :: p', b :: s' => if same_char nocase a b then strip nocase p' s' else None
  | _ :: _, [] => None
  end.

(** What is left of [s] after the first of the prefixes [ps] it has. *)
Fixpoint strip_one_of (nocase : bool) (ps : list string) (s : str) : option str :=
  match ps with
  | [] => None
  | p :: ps' =>
      match strip nocase (py p) s with
      | Some r => Some r
      | None => strip_one_of nocase ps' s
      end
  end.

(** The path: one of the four beginnings, then an identifier character. *)
Definition path_shape (nocase : bool) (s : str) : bool :=
  match strip_one_of nocase ["/p/"; "/reel/"; "/reels/"; "/tv/"]%string s with
  | Some (c :: _) => is_ident_char c
  | _ => false
  end.

(** The optional [www.], the host and the path. *)
Definition host_shape (nocase : bool) (s : str) : bool :=
  let s2 := default s (strip nocase (py "www.") s) in
  match strip nocase (py "instagram.com") s2 with
  | Some s3 => path_shape nocase s3
  | None => false
  end.

Definition url_shape (nocase : bool) (s : str) : bool :=
  host_shape nocase
    (default s (strip_one_of nocase ["http://"; "https://"]%string s)).

End Spec.

(** ** What a pattern matches *)

Module Lang.

(** [den r u]: the pattern [r] can consume exactly the word [u]. *)
Fixpoint den (r : regex) (u : str) : Prop :=
  match r with
  | Eps => u = []
  | Chr p => ∃ c, u = [c] ∧ p c = true
  | Seq r1 r2 => ∃ u1 u2, u = u1 ++ u2 ∧ den r1 u1 ∧ den r2 u2
  | Alt r1 r2 => den r1 u ∨ den r2 u
  | Opt r1 => den r1 u ∨ u = []
  | Rep p lo hi =>
      Forall (fun c => p c = true) u ∧ (lo ≤ length u)%nat ∧
      match hi with Some h => (length u ≤ h)%nat | None => True end
  | Grp _ r1 => den r1 u
  end.

End Lang.
Export Lang.

(** ** The diagnostic endpoint (src/main.py, lines 41-82) *)

Module Diagnostics.

(** The object [db] of the optional module [database], by what the
    handler does with it. [has_name] is [hasattr(db, 'name')]: the answer,
    or the text of the exception when reading the attribute raises another
    exception than [AttributeError]. [name] is [db.name] when it is read
    after that: the value, or the text of the exception it raises.
    [list_collection_names] is what lines 65-66 yield: the names, or the
    text of the exception raised there. *)
Record Database : Type := {
  has_name : str + bool;
  name : str + str;
  list_collection_names : str + list str
}.

(** What [from database import db] does: raise [ImportError], raise
    another exception with the given text, or bind [db], which may be
    [None]. *)
Inductive Import : Type :=
| ImportError
| ImportFailed (message : str)
| Imported (db : option Database).

(** The dictionary [response]. *)
Record Report : Type := {
  backend : str;
  database : str;
  database_url : option str;
  database_name : option str;
  connection_status : str;
  collections : list str
}.

Definition set_database (v : str) (r : Report) : Report :=
  {| backend := backend r; database := v; database_url := database_url r;
     database_name := database_name r; connection_status := connection_status r;
     collections := collections r |}.

Definition set_database_url (v : option str) (r : Report) : Report :=
  {| backend := backend r; database := database r; database_url := v;
     database_name := database_name r; connection_status := connection_status r;
     collections := collections r |}.

Definition set_database_name (v : option str) (r : Report) : Report :=
  {| backend := backend r; database := database r; database_url := database_url r;
     database_name := v; connection_status := connection_status r;
     collections := collections r |}.

Definition set_connection_status (v : str) (r : Report) : Report :=
  {| backend := backend r; database := database r; database_url := database_url r;
     database_name := database_name r; connection_status := v;
     collections := collections r |}.

Definition set_collections (v : list str) (r : Report) : Report :=
  {| backend := backend r; database := database r; database_url := database_url r;
     database_name := database_name r; connection_status := connection_status r;
     collections := v |}.

(** The signs of the messages: U+2705, U+274C, and U+26A0 with U+FE0F. *)
Definition check_mark : str := [0x2705].
Definition cross_mark : str := [0x274c].
Definition warning_sign : str := [0x26a0; 0xfe0f].

(** Lines 44-51. *)
Definition initial_report : Report :=
  {| backend := check_mark ++ py " Running";
     database := cross_mark ++ py " Not Available";
     database_url := None;
     database_name := None;
     connection_status := py "Not Connected";
     collections := [] |}.

(** Line 60, the right-hand side: the value to store, or the text of
    the exception that reading the attribute raises. *)
Definition name_or_default (db : Database) : str + str :=
  match has_name db with
  | inl e => inl e
  | inr true => name db
  | inr false => inr (check_mark ++ py " Connected")
  end.

(** Lines 53-76: the import and what follows it. An exception raised
    outside the inner [try] ends in the last [except], with what had been
    stored until then. *)
Definition probe_database (imported : Import) (response : Report) : Report :=
  match imported with
  | Imported (Some db) =>
      let response := set_database (check_mark ++ py " Available") response in
      let response :=
        set_database_url (Some (check_mark ++ py " Configured")) response in
      match name_or_default db with
      | inl e =>
          set_database (cross_mark ++ py " Error: " ++ take 50 e) response
      | inr v =>
          let response := set_database_name (Some v) response in
          let response := set_connection_status (py "Connected") response in
          match list_collection_names db with
          | inr names =>
              let response := set_collections (take 10 names) response in
              set_database (check_mark ++ py " Connected & Working") response
          | inl e =>
              set_database
                (warning_sign ++ py "  Connected but Error: " ++ take 50 e) response
          end
      end
  | Imported None =>
      set_database (warning_sign ++ py "  Available but not initialized") response
  | ImportError =>
      set_database
        (cross_mark ++ py " Database module not found (run enable-database first)")
        response
  | ImportFailed e =>
      set_database (cross_mark ++ py " Error: " ++ take 50 e) response
  end.

(** [X if os.getenv(name) else Y] of lines 79-80. *)
Definition env_flag (getenv : string -> option str) (name : string) : str :=
  if truthy_opt (getenv name) then check_mark ++ py " Set"
  else cross_mark ++ py " Not Set".

(** [test_database], given what the import does and the environment. *)
Definition test_database (imported : Import) (getenv : string -> option str)
    : Report :=
  let response := probe_database imported initial_report in
  let response :=
    set_database_url (Some (env_flag getenv "DATABASE_URL")) response in
  let response :=
    set_database_name (Some (env_flag getenv "DATABASE_NAME")) response in
  response.

End Diagnostics.

(** ** Definitions used to state further properties *)

(** A string with every slash written as backslash and slash, the way
    inline JSON carries an address. *)
Definition escape_slashes (t : str) : str := replace (py "/") (py "\/") t.

(** What a turn of the inline loop builds for the match [m]: the item of
    line 146 or of line 149, or the exception of the codec or of the
    validation. *)
Definition item_of_match {lib : PyLib} (og_image : option str)
    (m : gmap nat (list N)) : res MediaItem :=
  candidate ← candidate_of (group m 2);
  if str_eqb (group m 1) (py "video_url")
  then MediaItem_new (py "video") candidate og_image
  else MediaItem_new (py "image") candidate (Some candidate).

(** [den_groups r u g g']: the pattern [r] can consume exactly the word
    [u] and doing so turns the groups [g] into [g']. *)
Fixpoint den_groups (r : regex) (u : str) (g g' : gmap nat (list N)) : Prop :=
  match r with
  | Eps => u = [] ∧ g' = g
  | Chr p => (∃ c, u = [c] ∧ p c = true) ∧ g' = g
  | Seq r1 r2 =>
      ∃ u1 u2 g1, u = u1 ++ u2 ∧ den_groups r1 u1 g g1 ∧ den_groups r2 u2 g1 g'
  | Alt r1 r2 => den_groups r1 u g g' ∨ den_groups r2 u g g'
  | Opt r1 => den_groups r1 u g g' ∨ (u = [] ∧ g' = g)
  | Rep p lo hi => den (Rep p lo hi) u ∧ g' = g
  | Grp i r1 => ∃ g1, den_groups r1 u g g1 ∧ g' = <[i := u]> g1
  end.

Module MorePages.

(** An inline value with an escaped quote inside: the pattern stops at
    that quote, so the value it takes ends with a backslash. *)
Definition quoted_caption : str :=
  Page.meta_tag "property" "og:image" "https://x/pic.jpg"
    ++ DQ ++ py "display_url" ++ DQ ++ py ":" ++ DQ
    ++ py "https:\/\/x\/a.jpg?t=\" ++ DQ ++ py "b" ++ DQ.

(** A database with twelve collections and a name. *)
Definition twelve_collections : Diagnostics.Database :=
  {| Diagnostics.has_name := inr true;
     Diagnostics.name := inr (py "prod");
     Diagnostics.list_collection_names :=
       inr ((fun c => [c]) <$> py "abcdefghijkl") |}.

(** A database object whose attribute [name] cannot be read. *)
Definition broken_name : Diagnostics.Database :=
  {| Diagnostics.has_name := inl (py "connection closed");
     Diagnostics.name := inl (py "connection closed");
     Diagnostics.list_collection_names := inr [py "users"] |}.

End MorePages.

(** * Properties *)

Lemma res_bind_ret {A B} (a : A) (f : A → res B) : (x ← Ret a; f x) = f a.
Proof. reflexivity. Qed.

Lemma res_fmap_ret {A B} (a : A) (f : A → B) : f <$> Ret a = Ret (f a).
Proof. reflexivity. Qed.

Lemma res_bind_raise {A B} (e : exn) (f : A → res B) :
  (x ← Raise e; f x) = Raise e.
Proof. reflexivity. Qed.

Lemma res_mret {A} (a : A) : mret a = Ret a.
Proof. reflexivity. Qed.

Section Results.

Context {A B : Type}.

(** [mapM] returns when the function returns on each element, and raises
    at the first element on which the function raises. *)
Lemma mapM_ret (f : A → res B) (l : list A) (k : list B) :
  mapM f l = Ret k ↔ Forall2 (fun a b => f a = Ret b) l k.
Proof.
  revert k. induction l as [|a l IH]; intros k; cbn [mapM].
  - split; [intros [= <-]; constructor|by intros ->%Forall2_nil_inv_l].
  - destruct (f a) as [b|e] eqn:Hb; rewrite ?res_bind_ret, ?res_bind_raise.
    + destruct (mapM f l) as [k'|e] eqn:Hk;
        rewrite ?res_bind_ret, ?res_bind_raise, ?res_mret.
      * split.
        -- intros [= <-]. constructor; [done|by apply IH].
        -- intros (b' & k'' & Hb' & Hk'' & ->)%Forall2_cons_inv_l.
           apply IH in Hk''. congruence.
      * split; [done|].
        intros (b' & k'' & Hb' & Hk''%IH & ->)%Forall2_cons_inv_l. done.
    + split; [done|].
      intros (b' & k'' & Hb' & _)%Forall2_cons_inv_l. congruence.
Qed.

Lemma mapM_raise (f : A → res B) (l : list A) (e : exn) :
  mapM f l = Raise e ↔
  ∃ before a after,
    l = before ++ a :: after ∧
    Forall (fun a' => ∃ b, f a' = Ret b) before ∧ f a = Raise e.
Proof.
  induction l as [|a l IH]; cbn [mapM].
  - split; [done|]. intros (before & a & after & Hl & _). by destruct before.
  - destruct (f a) as [b|e'] eqn:Hb; rewrite ?res_bind_ret, ?res_bind_raise.
    + destruct (mapM f l) as [k'|e''] eqn:Hk;
        rewrite ?res_bind_ret, ?res_bind_raise, ?res_mret.
      * split; [done|].
        intros ([|a0 before] & a' & after & Hl & Hall & Ha').
        -- injection Hl as <- <-. congruence.
        -- injection Hl as <- ->. apply Forall_cons in Hall as [_ Hall].
           assert (@Ret (list B) k' = Raise e) as Habs; [|done].
           apply IH. by exists before, a', after.
      * split.
        -- intros [= <-].
           destruct (proj1 IH eq_refl) as (before & a' & after & -> & Hall & Ha').
           exists (a :: before), a', after. split; [done|].
           split; [constructor; [by exists b|done]|done].
        -- intros ([|a0 before] & a' & after & Hl & Hall & Ha').
           ++ injection Hl as <- <-. congruence.
           ++ injection Hl as <- ->. apply Forall_cons in Hall as [_ Hall].
              apply IH. by exists before, a', after.
    + split.
      * intros [= <-]. exists [], a, l. split; [done|]. split; [constructor|done].
      * intros ([|a0 before] & a' & after & Hl & Hall & Ha').
        -- injection Hl as <- <-. congruence.
        -- injection Hl as <- ->. apply Forall_cons in Hall as [[b Hb'] _].
           congruence.
Qed.

End Results.

Section Assembly.

Context {lib : PyLib}.
Implicit Types (media added : list MediaItem) (ms : list (gmap nat (list N))).
Implicit Types (tags : gmap (list N) (list N)) (og : option (list N)).
Implicit Types (u w : HttpUrl) (thumb : option HttpUrl).

Lemma str_eqb_true (a b : list N) : str_eqb a b = true ↔ a = b.
Proof. unfold str_eqb. apply bool_decide_eq_true. Qed.

(** The test of lines 145 and 148 succeeds whatever the list holds. *)
Lemma url_is_new_always (candidate : list N) media :
  url_is_new candidate media = true.
Proof. unfold url_is_new. by induction media. Qed.

(** *** Validation *)

Lemma validate_ret (s : list N) u :
  validate s = Ret u ↔ http_url s = Some (url_text u).
Proof.
  unfold validate. destruct (http_url s) as [t|]; split; try done.
  - by intros [= <-].
  - intros [= ->]. by destruct u.
Qed.

Lemma validate_cases (s : list N) :
  (∃ u, validate s = Ret u) ∨ validate s = Raise ValidationError.
Proof. unfold validate. destruct (http_url s); [left; by eexists|by right]. Qed.

Lemma validate_optional_cases og :
  (∃ thumb, validate_optional og = Ret thumb)
  ∨ validate_optional og = Raise ValidationError.
Proof.
  destruct og as [s|]; [|left; by eexists]. simpl.
  destruct (validate_cases s) as [[u ->]| ->]; [left; by eexists|by right].
Qed.

Lemma validate_optional_same (s : list N) u :
  validate s = Ret u → validate_optional (Some s) = Ret (Some u).
Proof. simpl. by intros ->. Qed.

Lemma MediaItem_new_ret (t s : list N) og u thumb :
  validate s = Ret u → validate_optional og = Ret thumb →
  MediaItem_new t s og = Ret {| type := t; url := u; thumbnail := thumb |}.
Proof. unfold MediaItem_new. by intros -> ->. Qed.

Lemma MediaItem_new_raise (t s : list N) og :
  validate s = Raise ValidationError
  ∨ validate_optional og = Raise ValidationError →
  MediaItem_new t s og = Raise ValidationError.
Proof.
  unfold MediaItem_new. intros [-> | Hog]; [done|].
  destruct (validate_cases s) as [[u ->]| ->]; [|done].
  by rewrite res_bind_ret, Hog.
Qed.

Lemma MediaItem_new_inv (t s : list N) og x :
  MediaItem_new t s og = Ret x →
  ∃ u thumb,
    validate s = Ret u ∧ validate_optional og = Ret thumb ∧
    x = {| type := t; url := u; thumbnail := thumb |}.
Proof.
  unfold MediaItem_new.
  destruct (validate s) as [u|e]; [|done]. rewrite res_bind_ret.
  destruct (validate_optional og) as [thumb|e]; [|done]. rewrite res_bind_ret.
  intros [= <-]. by exists u, thumb.
Qed.

(** *** The inline loop *)

(** What a match yields when it yields an item. *)
Lemma item_of_match_inv og m x :
  item_of_match og m = Ret x →
  ∃ candidate u thumb,
    candidate_of (group m 2) = Ret candidate ∧ validate candidate = Ret u ∧
    (str_eqb (group m 1) (py "video_url") = true →
     validate_optional og = Ret thumb) ∧
    x = inline_item thumb (group m 1) u.
Proof.
  unfold item_of_match, inline_item.
  destruct (candidate_of (group m 2)) as [c|e]; [|done]. rewrite res_bind_ret.
  destruct (str_eqb (group m 1) (py "video_url")).
  - intros (u & thumb & Hu & Hthumb & ->)%MediaItem_new_inv.
    by exists c, u, thumb.
  - intros (u & thumb & Hu & Hthumb & ->)%MediaItem_new_inv.
    exists c, u, None. split_and!; [done|done|done|].
    rewrite (validate_optional_same _ _ Hu) in Hthumb. by injection Hthumb as <-.
Qed.

Lemma item_of_match_ret og m (candidate : list N) u thumb :
  candidate_of (group m 2) = Ret candidate → validate candidate = Ret u →
  validate_optional og = Ret thumb →
  item_of_match og m = Ret (inline_item thumb (group m 1) u).
Proof.
  unfold item_of_match, inline_item. intros -> Hu Hthumb. rewrite res_bind_ret.
  destruct (str_eqb (group m 1) (py "video_url")).
  - by apply MediaItem_new_ret.
  - apply MediaItem_new_ret; [done|]. by apply validate_optional_same.
Qed.

(** A turn of the loop builds the item of its match and appends it: no
    turn leaves the list as it is. *)
Lemma inline_step_appends og media m :
  inline_step og media m = (item ← item_of_match og m; Ret (media ++ [item])).
Proof.
  unfold inline_step, item_of_match. cbv zeta.
  destruct (candidate_of (group m 2)) as [c|e]; [|done].
  rewrite !res_bind_ret, url_is_new_always.
  by destruct (str_eqb (group m 1) (py "video_url")).
Qed.

(** So the loop appends the items of all matches, in their order. *)
Lemma inline_loop_appends og ms media :
  inline_loop og media ms
    = (items ← mapM (item_of_match og) ms; Ret (media ++ items)).
Proof.
  revert media. induction ms as [|m ms IH]; intros media.
  - cbn [inline_loop mapM]. change (mret []) with (Ret (@nil MediaItem)).
    by rewrite res_bind_ret, app_nil_r.
  - cbn [inline_loop mapM]. rewrite inline_step_appends.
    destruct (item_of_match og m) as [x|e]; [|done]. rewrite !res_bind_ret, IH.
    destruct (mapM (item_of_match og) ms) as [items|e]; [|done].
    rewrite ?res_bind_ret, ?res_mret, ?res_bind_ret. by rewrite <- app_assoc.
Qed.

Lemma inline_loop_inv og ms media l :
  inline_loop og media ms = Ret l →
  ∃ items,
    Forall2 (fun m x => item_of_match og m = Ret x) ms items ∧ l = media ++ items.
Proof.
  rewrite inline_loop_appends.
  destruct (mapM (item_of_match og) ms) as [items|e] eqn:Hitems; [|done].
  rewrite res_bind_ret. intros [= <-]. exists items. split; [|done].
  by apply mapM_ret.
Qed.

(** The loop returns a list when every matched value decodes to an
    address that [HttpUrl] accepts, the thumbnail being one as well. *)
Lemma inline_loop_returns og ms media thumb :
  validate_optional og = Ret thumb →
  Forall (fun m => ∃ c w, candidate_of (group m 2) = Ret c ∧ validate c = Ret w) ms →
  ∃ added, inline_loop og media ms = Ret (media ++ added).
Proof.
  intros Hthumb Hms. rewrite inline_loop_appends.
  assert (∃ items, mapM (item_of_match og) ms = Ret items) as [items ->].
  { induction Hms as [|m ms (c & w & Hc & Hw) _ [items IH]].
    - by exists [].
    - cbn [mapM]. rewrite (item_of_match_ret _ _ _ _ _ Hc Hw Hthumb), res_bind_ret, IH.
      by eexists. }
  rewrite res_bind_ret. by exists items.
Qed.

Lemma inline_item_shape thumb kind u : item_shape thumb (inline_item thumb kind u).
Proof.
  unfold inline_item, item_shape.
  destruct (str_eqb kind (py "video_url")); simpl; split_and!;
    try done; eauto; by intros [=].
Qed.

(** *** The list before the scan, case by case *)

Lemma primary_media_video tags (v : list N) u thumb :
  og_video tags = Some v → v ≠ [] →
  validate v = Ret u → validate_optional (og_image tags) = Ret thumb →
  primary_media tags = Ret [video_item u thumb].
Proof.
  unfold primary_media. intros -> Hv Hu Hthumb.
  destruct v as [|c v]; [done|]. cbn [truthy].
  rewrite (MediaItem_new_ret _ _ _ _ _ Hu Hthumb), !res_bind_ret.
  destruct (og_image tags) as [i|]; [|done].
  by rewrite andb_false_r.
Qed.

Lemma primary_media_video_raises tags (v : list N) :
  og_video tags = Some v → v ≠ [] →
  validate v = Raise ValidationError
  ∨ validate_optional (og_image tags) = Raise ValidationError →
  primary_media tags = Raise ValidationError.
Proof.
  unfold primary_media. intros -> Hv Hbad.
  destruct v as [|c v]; [done|]. cbn [truthy].
  by rewrite (MediaItem_new_raise _ _ _ Hbad).
Qed.

Lemma primary_media_image tags (i : list N) :
  truthy_opt (og_video tags) = false → og_image tags = Some i → i ≠ [] →
  primary_media tags = (item ← MediaItem_new (py "image") i (Some i); Ret [item]).
Proof.
  unfold primary_media. intros Hv -> Hi.
  destruct i as [|c i]; [done|].
  destruct (og_video tags) as [[|? ?]|]; simpl in *; done.
Qed.

Lemma primary_media_none tags :
  truthy_opt (og_video tags) = false → truthy_opt (og_image tags) = false →
  primary_media tags = Ret [].
Proof.
  unfold primary_media. intros Hv Hi.
  destruct (og_video tags) as [[|? ?]|], (og_image tags) as [[|? ?]|];
    simpl in *; done.
Qed.

(** Whatever the tags, the list before the scan is empty, a single video
    with the validated primary image as thumbnail, or a single image. *)
Lemma primary_media_inv tags media :
  primary_media tags = Ret media →
  (media = [] ∧ truthy_opt (og_video tags) = false
   ∧ truthy_opt (og_image tags) = false)
  ∨ (∃ v u thumb,
       og_video tags = Some v ∧ v ≠ [] ∧ validate v = Ret u ∧
       validate_optional (og_image tags) = Ret thumb ∧
       media = [video_item u thumb])
  ∨ (∃ i u,
       truthy_opt (og_video tags) = false ∧ og_image tags = Some i ∧ i ≠ [] ∧
       validate i = Ret u ∧ media = [image_item u]).
Proof.
  destruct (og_video tags) as [[|c v]|] eqn:Hv.
  - destruct (og_image tags) as [[|d i]|] eqn:Hi.
    + rewrite primary_media_none by (by rewrite ?Hv, ?Hi). intros [= <-]. by left.
    + rewrite (primary_media_image _ (d :: i)) by (by rewrite ?Hv, ?Hi).
      destruct (MediaItem_new _ _ _) as [x|e] eqn:Hx; [|done].
      apply MediaItem_new_inv in Hx as (u & thumb & Hu & Hthumb & ->).
      rewrite (validate_optional_same _ _ Hu) in Hthumb. injection Hthumb as <-.
      rewrite res_bind_ret. intros [= <-]. right. right. by exists (d :: i), u.
    + rewrite primary_media_none by (by rewrite ?Hv, ?Hi). intros [= <-]. by left.
  - intros Hp. right. left.
    destruct (validate_cases (c :: v)) as [[u Hu]|Hu];
      [|by rewrite (primary_media_video_raises _ (c :: v)) in Hp; auto].
    destruct (validate_optional_cases (og_image tags)) as [[thumb Hthumb]|Hthumb];
      [|by rewrite (primary_media_video_raises _ (c :: v)) in Hp; auto].
    rewrite (primary_media_video _ (c :: v) u thumb) in Hp by done.
    injection Hp as <-. by exists (c :: v), u, thumb.
  - destruct (og_image tags) as [[|d i]|] eqn:Hi.
    + rewrite primary_media_none by (by rewrite ?Hv, ?Hi). intros [= <-]. by left.
    + rewrite (primary_media_image _ (d :: i)) by (by rewrite ?Hv, ?Hi).
      destruct (MediaItem_new _ _ _) as [x|e] eqn:Hx; [|done].
      apply MediaItem_new_inv in Hx as (u & thumb & Hu & Hthumb & ->).
      rewrite (validate_optional_same _ _ Hu) in Hthumb. injection Hthumb as <-.
      rewrite res_bind_ret. intros [= <-]. right. right. by exists (d :: i), u.
    + rewrite primary_media_none by (by rewrite ?Hv, ?Hi). intros [= <-]. by left.
Qed.

(** [a or b] keeps a non-empty [a] and otherwise is [b]. *)
Lemma py_or_Some_nonempty (a b : option (list N)) v :
  v ≠ [] →
  py_or a b = Some v ↔ a = Some v ∨ (truthy_opt a = false ∧ b = Some v).
Proof.
  intros Hv. unfold py_or, truthy_opt.
  destruct a as [[|c s]|]; simpl.
  - split; [tauto|]. intros [[= <-]|[_ Hb]]; [done|exact Hb].
  - split; [tauto|]. intros [Hs|[[=] _]]. exact Hs.
  - split; [tauto|]. intros [[=]|[_ Hb]]. exact Hb.
Qed.

Lemma og_image_absent tags :
  tags !! py "og:image" = None → tags !! py "twitter:image" = None →
  og_image tags = None.
Proof. unfold og_image. by intros -> ->. Qed.

Lemma assemble_media_inv html l :
  assemble_media html = Ret l →
  ∃ media items,
    primary_media (extract_meta_tags html) = Ret media ∧
    Forall2 (fun m x => item_of_match (og_image (extract_meta_tags html)) m = Ret x)
      (finditer inline_pattern html) items ∧
    l = media ++ items.
Proof.
  unfold assemble_media.
  destruct (primary_media (extract_meta_tags html)) as [media|e]; [|done].
  rewrite res_bind_ret. intros (items & Hitems & ->)%inline_loop_inv.
  by exists media, items.
Qed.

Lemma assemble_media_primary_raises html e :
  primary_media (extract_meta_tags html) = Raise e → assemble_media html = Raise e.
Proof. unfold assemble_media. by intros ->. Qed.

(** How the handler can end with a list. *)
Lemma instagram_inspect_returned net payload media :
  (instagram_inspect net payload).1 = Returned media →
  url_accepted (payload_str payload) = true ∧ media ≠ [] ∧
  ∃ html,
    net (get_page (payload_str payload)) = Response 200 html ∧
    assemble_media html = Ret media.
Proof.
  unfold instagram_inspect. cbv zeta.
  destruct (url_accepted (payload_str payload)); simpl; [|discriminate].
  destruct (net (get_page (payload_str payload))) as [|status text]; simpl;
    [discriminate|].
  destruct (Z.eqb_spec status 200) as [->|Hne]; simpl; [|discriminate].
  unfold parse_page.
  destruct (assemble_media text) as [[|x l]|e] eqn:Ha; simpl; try discriminate.
  intros [= <-]. split_and!; [done|done|by exists text].
Qed.

(** C1 (amended). When the extracted tags hold a non-empty og:video, or
    hold no non-empty og:video and a non-empty twitter:player:stream, and
    HttpUrl accepts that value and the primary image (og:image, or
    twitter:image when og:image is missing or empty) if there is one, then
    the list before the inline scan is the single item of type video whose
    url is the value as HttpUrl holds it and whose thumbnail is the primary
    image as HttpUrl holds it, or none; every list the assembly returns
    starts with that item, the items of the inline scan following it; the
    assembly does return such a list when every inline value decodes to an
    address HttpUrl accepts; and a list the handler returns for that page
    starts with that item. When HttpUrl refuses the value or the primary
    image, the construction of the item raises ValidationError and there is
    no list. *)
Theorem primary_video_is_first (html v : list N) :
  (extract_meta_tags html !! py "og:video" = Some v
   ∨ (truthy_opt (extract_meta_tags html !! py "og:video") = false
      ∧ extract_meta_tags html !! py "twitter:player:stream" = Some v)) →
  v ≠ [] →
  (∀ u thumb,
     validate v = Ret u →
     validate_optional
       (py_or (extract_meta_tags html !! py "og:image")
              (extract_meta_tags html !! py "twitter:image")) = Ret thumb →
     primary_media (extract_meta_tags html) = Ret [video_item u thumb] ∧
     (∀ l, assemble_media html = Ret l → ∃ added, l = video_item u thumb :: added) ∧
     (Forall (fun m => ∃ c w, candidate_of (group m 2) = Ret c ∧ validate c = Ret w)
        (finditer inline_pattern html) →
      ∃ added, assemble_media html = Ret (video_item u thumb :: added)) ∧
     (∀ net payload media,
        net (get_page (payload_str payload)) = Response 200 html →
        (instagram_inspect net payload).1 = Returned media →
        ∃ added, media = video_item u thumb :: added)) ∧
  (validate v = Raise ValidationError
   ∨ validate_optional
       (py_or (extract_meta_tags html !! py "og:image")
              (extract_meta_tags html !! py "twitter:image")) = Raise ValidationError →
   primary_media (extract_meta_tags html) = Raise ValidationError ∧
   assemble_media html = Raise ValidationError ∧
   parse_page html = Uncaught ValidationError).
Proof.
  intros Htag Hv.
  assert (og_video (extract_meta_tags html) = Some v) as Hvideo.
  { unfold og_video. by apply py_or_Some_nonempty. }
  change (py_or (extract_meta_tags html !! py "og:image")
                (extract_meta_tags html !! py "twitter:image"))
    with (og_image (extract_meta_tags html)).
  split.
  - intros u thumb Hu Hthumb.
    assert (primary_media (extract_meta_tags html) = Ret [video_item u thumb])
      as Hfirst by (by apply (primary_media_video _ v)).
    assert (∀ l, assemble_media html = Ret l →
              ∃ added, l = video_item u thumb :: added) as Hstarts.
    { intros l (media & items & Hmedia & _ & ->)%assemble_media_inv.
      rewrite Hfirst in Hmedia. injection Hmedia as <-. by exists items. }
    split_and!; [done|done| |].
    + intros Hms. unfold assemble_media. rewrite Hfirst, res_bind_ret.
      destruct (inline_loop_returns _ _ [video_item u thumb] _ Hthumb Hms)
        as [added ->].
      by exists added.
    + intros net payload media Hnet
        (_ & _ & html' & Hnet' & Hl)%instagram_inspect_returned.
      rewrite Hnet in Hnet'. injection Hnet' as <-. by apply Hstarts.
  - intros Hbad.
    assert (primary_media (extract_meta_tags html) = Raise ValidationError)
      as Hraise by (by apply (primary_media_video_raises _ v)).
    split; [done|].
    assert (assemble_media html = Raise ValidationError) as Ha
      by (by apply assemble_media_primary_raises).
    split; [done|]. unfold parse_page. by rewrite Ha.
Qed.

(** C9 (amended). When the extracted tags hold a non-empty primary image
    (og:image, or twitter:image when og:image is missing or empty) and no
    non-empty og:video or twitter:player:stream, the list before the inline
    scan is exactly the one image item whose url is that value as HttpUrl
    holds it and whose thumbnail is its own url, provided HttpUrl accepts
    the value; when it refuses it, the construction of the item raises
    ValidationError and there is no list. For the page that consists of the
    og:image tag of the specification, the assembled list is exactly that
    item with the address as it is written, for every library that leaves
    the key and the address as they are. *)
Theorem primary_image_alone (html i : list N) :
  ((extract_meta_tags html !! py "og:image" = Some i
    ∨ (truthy_opt (extract_meta_tags html !! py "og:image") = false
       ∧ extract_meta_tags html !! py "twitter:image" = Some i)) →
   i ≠ [] →
   truthy_opt (extract_meta_tags html !! py "og:video") = false →
   truthy_opt (extract_meta_tags html !! py "twitter:player:stream") = false →
   (∀ u, validate i = Ret u →
      primary_media (extract_meta_tags html) = Ret [image_item u]) ∧
   (validate i = Raise ValidationError →
      primary_media (extract_meta_tags html) = Raise ValidationError ∧
      assemble_media html = Raise ValidationError ∧
      parse_page html = Uncaught ValidationError)) ∧
  (lower (py "og:image") = py "og:image" →
   unescape (py "https://x/pic.jpg") = py "https://x/pic.jpg" →
   http_url (py "https://x/pic.jpg") = Some (py "https://x/pic.jpg") →
   assemble_media Page.only_image = Ret [image_item (Url "https://x/pic.jpg")]).
Proof.
  split.
  - intros Htag Hi Hv Hs.
    assert (primary_media (extract_meta_tags html)
              = (item ← MediaItem_new (py "image") i (Some i); Ret [item])) as Hp.
    { apply primary_media_image; [|by apply py_or_Some_nonempty|done].
      unfold og_video, py_or.
      destruct (extract_meta_tags html !! py "og:video") as [[|? ?]|]; done. }
    split.
    + intros u Hu. rewrite Hp.
      by rewrite (MediaItem_new_ret _ _ _ _ _ Hu (validate_optional_same _ _ Hu)).
    + intros Hbad.
      assert (primary_media (extract_meta_tags html) = Raise ValidationError)
        as Hraise.
      { rewrite Hp. rewrite MediaItem_new_raise; [done|by left]. }
      split; [done|].
      assert (assemble_media html = Raise ValidationError) as Ha
        by (by apply assemble_media_primary_raises).
      split; [done|]. unfold parse_page. by rewrite Ha.
  - intros Hkey Hval Hurl.
    assert (extract_meta_tags Page.only_image
              = <[py "og:image" := py "https://x/pic.jpg"]> ∅) as Htags.
    { unfold extract_meta_tags.
      replace (findall meta_pattern Page.only_image)
        with [(py "og:image", py "https://x/pic.jpg")] by (vm_compute; reflexivity).
      replace (findall name_pattern Page.only_image)
        with (@nil (list N * list N)) by (vm_compute; reflexivity).
      simpl. unfold store_tag. simpl. by rewrite Hkey, Hval. }
    assert (validate (py "https://x/pic.jpg") = Ret (Url "https://x/pic.jpg")) as Hu.
    { apply validate_ret. exact Hurl. }
    unfold assemble_media. rewrite Htags.
    replace (finditer inline_pattern Page.only_image)
      with (@nil (gmap nat (list N))) by (vm_compute; reflexivity).
    rewrite (primary_media_image _ (py "https://x/pic.jpg"));
      [|vm_compute; reflexivity|vm_compute; reflexivity|discriminate].
    by rewrite (MediaItem_new_ret _ _ _ _ _ Hu (validate_optional_same _ _ Hu)).
Qed.

(** The thumbnail of every item built from the tags or from a match. *)
Lemma assemble_media_shape html l thumb :
  validate_optional (og_image (extract_meta_tags html)) = Ret thumb →
  assemble_media html = Ret l → Forall (item_shape thumb) l.
Proof.
  intros Hthumb (media & items & Hmedia & Hitems & ->)%assemble_media_inv.
  apply Forall_app. split.
  - apply primary_media_inv in Hmedia
      as [(-> & _)|[(v & u & thumb' & _ & _ & _ & Hthumb' & ->)|(i & u & _ & _ & _ & _ & ->)]].
    + constructor.
    + rewrite Hthumb in Hthumb'. injection Hthumb' as <-.
      repeat constructor; simpl; try done; by intros [=].
    + repeat constructor; simpl; try done; by intros [=].
  - induction Hitems as [|m x ms items Hx _ IH]; constructor; [|exact IH].
    apply item_of_match_inv in Hx as (c & u & thumb' & _ & _ & Hvideo & ->).
    assert (inline_item thumb' (group m 1) u = inline_item thumb (group m 1) u)
      as ->; [|apply inline_item_shape].
    unfold inline_item in *.
    destruct (str_eqb (group m 1) (py "video_url")); [|done].
    rewrite Hthumb in Hvideo. specialize (Hvideo eq_refl). by injection Hvideo as <-.
Qed.

(** Unless the list is made of images only, the primary image is one that
    HttpUrl accepts, or there is none. *)
Lemma assemble_media_thumbnail html l :
  assemble_media html = Ret l →
  (∃ thumb, validate_optional (og_image (extract_meta_tags html)) = Ret thumb)
  ∨ Forall (fun x => type x = py "image" ∧ thumbnail x = Some (url x)) l.
Proof.
  intros Hl.
  destruct (validate_optional_cases (og_image (extract_meta_tags html)))
    as [Hthumb|Hbad]; [by left|right].
  apply assemble_media_inv in Hl as (media & items & Hmedia & Hitems & ->).
  apply Forall_app. split.
  - apply primary_media_inv in Hmedia
      as [(-> & _)|[(v & u & thumb' & _ & _ & _ & Hthumb' & ->)|(i & u & _ & _ & _ & _ & ->)]].
    + constructor.
    + congruence.
    + by repeat constructor.
  - induction Hitems as [|m x ms items Hx _ IH]; constructor; [|exact IH].
    apply item_of_match_inv in Hx as (c & u & thumb' & _ & _ & Hvideo & ->).
    unfold inline_item in *.
    destruct (str_eqb (group m 1) (py "video_url")); [|done].
    specialize (Hvideo eq_refl). congruence.
Qed.

(** C10 (amended). Every item of a list the handler returns has type video
    or image; an image item has its own url as thumbnail; a video item has
    as thumbnail the primary image of the page (og:image, or twitter:image
    when og:image is missing or empty) as HttpUrl holds it after
    validation, whose text is what [http_url] makes of the tag value, and
    no thumbnail exactly when there is no primary image, as when the page
    has neither tag. *)
Theorem returned_items_shape net payload media :
  (instagram_inspect net payload).1 = Returned media →
  ∃ html,
    net (get_page (payload_str payload)) = Response 200 html ∧
    Forall (fun x =>
              (type x = py "video" ∨ type x = py "image") ∧
              (type x = py "image" → thumbnail x = Some (url x)) ∧
              (type x = py "video" →
               validate_optional
                 (py_or (extract_meta_tags html !! py "og:image")
                        (extract_meta_tags html !! py "twitter:image"))
                 = Ret (thumbnail x) ∧
               (∀ t, thumbnail x = Some t →
                  ∃ i, py_or (extract_meta_tags html !! py "og:image")
                             (extract_meta_tags html !! py "twitter:image") = Some i
                       ∧ http_url i = Some (url_text t))))
      media ∧
    (extract_meta_tags html !! py "og:image" = None →
     extract_meta_tags html !! py "twitter:image" = None →
     Forall (fun x => type x = py "video" → thumbnail x = None) media).
Proof.
  intros (_ & _ & html & Hnet & Hl)%instagram_inspect_returned.
  exists html. split; [done|].
  change (py_or (extract_meta_tags html !! py "og:image")
                (extract_meta_tags html !! py "twitter:image"))
    with (og_image (extract_meta_tags html)).
  assert (Forall (fun x =>
              (type x = py "video" ∨ type x = py "image") ∧
              (type x = py "image" → thumbnail x = Some (url x)) ∧
              (type x = py "video" →
               validate_optional (og_image (extract_meta_tags html))
                 = Ret (thumbnail x))) media) as Hshape.
  { destruct (assemble_media_thumbnail _ _ Hl) as [[thumb Hthumb]|Himages].
    - eapply Forall_impl; [exact (assemble_media_shape _ _ _ Hthumb Hl)|].
      intros x (Htype & Himage & Hvideo). split_and!; [done|done|].
      intros Hx. by rewrite (Hvideo Hx).
    - eapply Forall_impl; [exact Himages|].
      intros x [Htype Hown]. split_and!; [by right|done|].
      rewrite Htype. intros Habs. vm_compute in Habs. discriminate Habs. }
  split.
  - eapply Forall_impl; [exact Hshape|].
    intros x (Htype & Himage & Hvideo). split_and!; [done|done|].
    intros Hx. split; [by apply Hvideo|].
    intros t Ht. specialize (Hvideo Hx). rewrite Ht in Hvideo.
    destruct (og_image (extract_meta_tags html)) as [i|]; [|done].
    exists i. split; [done|]. simpl in Hvideo.
    destruct (validate i) as [t'|e] eqn:Hi; [|done].
    injection Hvideo as ->. by apply validate_ret.
  - intros Hi Ht. rewrite (og_image_absent _ Hi Ht) in Hshape.
    eapply Forall_impl; [exact Hshape|]. intros x (_ & _ & Hx) Hvideo.
    specialize (Hx Hvideo). simpl in Hx. by injection Hx.
Qed.

End Assembly.

Section Handler.

Context {lib : PyLib}.

Lemma instagram_inspect_rejects net payload :
  url_accepted (payload_str payload) = false →
  instagram_inspect net payload = (HTTPException 400 invalid_url_detail, []).
Proof. unfold instagram_inspect. cbv zeta. by intros ->. Qed.

Lemma instagram_inspect_response net payload status text :
  url_accepted (payload_str payload) = true →
  net (get_page (payload_str payload)) = Response status text →
  instagram_inspect net payload =
    (if (status =? 200)%Z then parse_page text
     else HTTPException status upstream_error_detail,
     [get_page (payload_str payload)]).
Proof.
  unfold instagram_inspect. cbv zeta. intros -> ->. simpl.
  by destruct (status =? 200)%Z.
Qed.

(** What the route does with the text of the field url. *)
Lemma post_instagram_inspect_refused net (s : list N) :
  http_url s = None →
  post_instagram_inspect net s = (RequestValidationError, []).
Proof. unfold post_instagram_inspect, validate. by intros ->. Qed.

Lemma post_instagram_inspect_validated net (s u : list N) :
  http_url s = Some u →
  post_instagram_inspect net s
    = instagram_inspect net {| payload_url := {| url_text := u |} |}.
Proof. unfold post_instagram_inspect, validate. by intros ->. Qed.

(** C3 (amended). Once the URL is accepted and the upstream site has
    answered, every status other than 200, so every status outside 2xx and
    every other 2xx status, makes the request fail with an error that
    carries that status and the message of [upstream_error_detail]; only
    the status 200 has its body parsed. *)
Theorem upstream_status_propagated net payload status text :
  url_accepted (payload_str payload) = true →
  net (get_page (payload_str payload)) = Response status text →
  (status ≠ 200%Z →
   instagram_inspect net payload
     = (HTTPException status upstream_error_detail,
        [get_page (payload_str payload)])) ∧
  (¬ (200 ≤ status < 300)%Z →
   instagram_inspect net payload
     = (HTTPException status upstream_error_detail,
        [get_page (payload_str payload)])) ∧
  (status = 200%Z →
   instagram_inspect net payload
     = (parse_page text, [get_page (payload_str payload)])).
Proof.
  intros Hok Hnet. rewrite (instagram_inspect_response _ _ _ _ Hok Hnet).
  split_and!.
  - intros Hne. by destruct (Z.eqb_spec status 200).
  - intros Hout. destruct (Z.eqb_spec status 200); [lia|done].
  - by intros ->.
Qed.

(** C8. The handler ends with the error 422 and the message of
    [no_media_detail] exactly when the URL was accepted, the site answered
    200 and the list assembled from the page is empty; and a list it
    returns, which is what a 200 response carries, is never empty. *)
Theorem no_media_iff_empty_list net payload :
  ((instagram_inspect net payload).1 = HTTPException 422 no_media_detail ↔
   url_accepted (payload_str payload) = true ∧
   ∃ html,
     net (get_page (payload_str payload)) = Response 200 html ∧
     assemble_media html = Ret []) ∧
  (∀ media, (instagram_inspect net payload).1 = Returned media → media ≠ []).
Proof.
  split.
  - split.
    + unfold instagram_inspect. cbv zeta.
      destruct (url_accepted (payload_str payload)); simpl; [|discriminate].
      destruct (net (get_page (payload_str payload))) as [|status text]; simpl;
        [discriminate|].
      destruct (Z.eqb_spec status 200) as [->|Hne]; simpl.
      * unfold parse_page.
        destruct (assemble_media text) as [[|x l]|e] eqn:Ha; try discriminate.
        intros _. split; [done|]. by exists text.
      * intros Heq. exfalso. injection Heq as _ Hdetail. discriminate Hdetail.
    + intros [Hok (html & Hnet & Hl)].
      rewrite (instagram_inspect_response _ _ _ _ Hok Hnet). simpl.
      unfold parse_page. by rewrite Hl.
  - intros media (_ & Hne & _)%instagram_inspect_returned. exact Hne.
Qed.

End Handler.

Section Tags.

Context {lib : PyLib}.
Implicit Types (tags : gmap (list N) (list N)) (l : list (list N * list N)).

Lemma store_tags_other tags l (k : list N) :
  Forall (fun m => lower m.1 ≠ k) l →
  foldl store_tag tags l !! k = tags !! k.
Proof.
  intros Hl. revert tags. induction Hl as [|m l Hm _ IH]; intros tags; simpl.
  - done.
  - rewrite IH. unfold store_tag. by rewrite lookup_insert_ne.
Qed.

Lemma store_tags_last tags l before (key content : list N) after :
  l = before ++ (key, content) :: after →
  Forall (fun m => lower m.1 ≠ lower key) after →
  foldl store_tag tags l !! lower key = Some (unescape content).
Proof.
  intros -> Hafter. rewrite foldl_app. simpl.
  rewrite (store_tags_other _ _ _ Hafter).
  unfold store_tag at 1. simpl. by rewrite lookup_insert_eq.
Qed.

Lemma extract_meta_tags_order html :
  extract_meta_tags html
    = foldl store_tag ∅ (findall meta_pattern html ++ findall name_pattern html).
Proof. unfold extract_meta_tags. by rewrite foldl_app. Qed.

(** C7. The tags are the matches of the property scan followed by those
    of the name scan, stored in that order under their lower-cased keys.
    So the value of a key is that of the last match with that key in this
    order: a later match overwrites an earlier one within a scan, and the
    last match of the name scan overwrites every property match of the
    same key. A key that no match produces is absent. *)
Theorem last_meta_tag_wins html :
  extract_meta_tags html
    = foldl store_tag ∅ (findall meta_pattern html ++ findall name_pattern html) ∧
  (∀ before key content after,
     findall meta_pattern html ++ findall name_pattern html
       = before ++ (key, content) :: after →
     Forall (fun m => lower m.1 ≠ lower key) after →
     extract_meta_tags html !! lower key = Some (unescape content)) ∧
  (∀ before key content after,
     findall name_pattern html = before ++ (key, content) :: after →
     Forall (fun m => lower m.1 ≠ lower key) after →
     extract_meta_tags html !! lower key = Some (unescape content)) ∧
  (∀ k : list N,
     Forall (fun m => lower m.1 ≠ k)
       (findall meta_pattern html ++ findall name_pattern html) →
     extract_meta_tags html !! k = None).
Proof.
  split_and!.
  - apply extract_meta_tags_order.
  - intros before key content after Hl Hafter.
    rewrite extract_meta_tags_order. by eapply store_tags_last.
  - intros before key content after Hl Hafter.
    rewrite extract_meta_tags_order.
    eapply (store_tags_last _ _ (findall meta_pattern html ++ before)); [|done].
    by rewrite Hl, <- app_assoc.
  - intros k Hk. rewrite extract_meta_tags_order, (store_tags_other _ _ _ Hk).
    apply lookup_empty.
Qed.

End Tags.

(** ** The matcher against what a pattern matches *)

Section Matching.

Context {A : Type}.
Implicit Types (k : list N → gmap nat (list N) → option A).

Lemma rep_sound p lo hi (s : list N) (k1 : list N → option A) x :
  rep p lo hi s k1 = Some x →
  ∃ u s', s = u ++ s' ∧ den (Rep p lo hi) u ∧ k1 s' = Some x.
Proof.
  revert lo hi. induction s as [|c s IH]; intros lo hi; simpl.
  - destruct lo; [|discriminate]. intros Hk.
    exists [], []. split; [done|split; [|done]].
    split; [constructor|split; [simpl; lia|by destruct hi; simpl; [lia|]]].
  - assert (match lo with O => k1 (c :: s) | S _ => None end = Some x →
            ∃ u s', c :: s = u ++ s' ∧ den (Rep p lo hi) u ∧ k1 s' = Some x) as Hstop.
    { destruct lo; [|discriminate]. intros Hk.
      exists [], (c :: s). split; [done|split; [|done]].
      split; [constructor|split; [simpl; lia|by destruct hi; simpl; [lia|]]]. }
    destruct (p c) eqn:Hp; simpl; [|exact Hstop].
    destruct (may_take hi) eqn:Hhi; simpl; [|exact Hstop].
    destruct (rep p (pred lo) (one_less hi) s k1) as [y|] eqn:Hrec; [|exact Hstop].
    intros [= ->].
    destruct (IH _ _ Hrec) as (u & s' & -> & (Hall & Hlo & Hbound) & Hk).
    exists (c :: u), s'. split; [done|split; [|done]].
    split; [by constructor|split; [simpl; lia|]].
    destruct hi as [[|h]|]; simpl in *; [discriminate|lia|done].
Qed.

Lemma rep_complete p lo hi (u s' : list N) (k1 : list N → option A) :
  den (Rep p lo hi) u → is_Some (k1 s') → is_Some (rep p lo hi (u ++ s') k1).
Proof.
  revert lo hi. induction u as [|c u IH]; intros lo hi (Hall & Hlo & Hbound) Hk.
  - simpl in Hlo. assert (lo = O) as -> by lia. simpl.
    destruct s' as [|c s']; simpl; [done|].
    destruct (p c && may_take hi); [|done].
    by destruct (rep p 0 (one_less hi) s' k1).
  - apply Forall_cons in Hall as [Hp Hall]. simpl. rewrite Hp.
    assert (may_take hi = true) as ->.
    { destruct hi as [[|h]|]; simpl in *; [lia|done|done]. }
    simpl.
    destruct (IH (pred lo) (one_less hi)) as [y ->]; [|done|done].
    split; [done|split; [simpl in Hlo; lia|]].
    destruct hi as [h|]; simpl in *; [lia|done].
Qed.

(** A successful run of the matcher consumed a word of the pattern. *)
Lemma exec_sound r (s : list N) g k x :
  exec r s g k = Some x →
  ∃ u s' g', s = u ++ s' ∧ den r u ∧ k s' g' = Some x.
Proof.
  revert s g k x. induction r as [|p|r1 IH1 r2 IH2|r1 IH1 r2 IH2|r1 IH1|p lo hi|i r1 IH1];
    intros s g k x; simpl.
  - intros Hk. by exists [], s, g.
  - destruct s as [|c s]; [discriminate|].
    destruct (p c) eqn:Hp; [|discriminate]. intros Hk.
    exists [c], s, g. split; [done|split; [by exists c|done]].
  - intros (u1 & s1 & g1 & -> & Hu1 & (u2 & s2 & g2 & -> & Hu2 & Hk)%IH2)%IH1.
    exists (u1 ++ u2), s2, g2. split; [by rewrite app_assoc|split; [|done]].
    by exists u1, u2.
  - destruct (exec r1 s g k) as [y|] eqn:H1.
    + intros [= ->]. destruct (IH1 _ _ _ _ H1) as (u & s' & g' & -> & Hu & Hk).
      exists u, s', g'. split; [done|split; [by left|done]].
    + intros (u & s' & g' & -> & Hu & Hk)%IH2.
      exists u, s', g'. split; [done|split; [by right|done]].
  - destruct (exec r1 s g k) as [y|] eqn:H1.
    + intros [= ->]. destruct (IH1 _ _ _ _ H1) as (u & s' & g' & -> & Hu & Hk).
      exists u, s', g'. split; [done|split; [by left|done]].
    + intros Hk. exists [], s, g. split; [done|split; [by right|done]].
  - intros (u & s' & -> & Hu & Hk)%rep_sound. by exists u, s', g.
  - intros (u & s' & g' & -> & Hu & Hk)%IH1. by eexists u, s', _.
Qed.

(** Backtracking finds a match whenever the pattern has a word at the head
    of the string and the continuation accepts what follows it. *)
Lemma exec_complete r (u s' : list N) g k :
  den r u → (∀ g', is_Some (k s' g')) → is_Some (exec r (u ++ s') g k).
Proof.
  revert u s' g k. induction r as [|p|r1 IH1 r2 IH2|r1 IH1 r2 IH2|r1 IH1|p lo hi|i r1 IH1];
    intros u s' g k; simpl.
  - intros -> Hk. apply Hk.
  - intros (c & -> & Hp) Hk. simpl. rewrite Hp. apply Hk.
  - intros (u1 & u2 & -> & Hu1 & Hu2) Hk. rewrite <- app_assoc.
    apply IH1; [done|]. intros g'. by apply IH2.
  - intros [Hu|Hu] Hk.
    + by destruct (IH1 u s' g k Hu Hk) as [y ->].
    + destruct (exec r1 (u ++ s') g k); [done|]. by apply IH2.
  - intros [Hu| ->] Hk.
    + by destruct (IH1 u s' g k Hu Hk) as [y ->].
    + simpl. destruct (exec r1 s' g k); [done|]. apply Hk.
  - intros Hu Hk. by apply rep_complete.
  - intros Hu Hk. apply IH1; [done|]. intros g'. apply Hk.
Qed.

End Matching.

Lemma re_match_iff r (s : list N) :
  is_Some (re_match r s) ↔ ∃ u s', s = u ++ s' ∧ den r u.
Proof.
  unfold re_match. split.
  - intros [x (u & s' & g' & -> & Hu & _)%exec_sound]. by exists u, s'.
  - intros (u & s' & -> & Hu). by apply exec_complete.
Qed.

Lemma den_seq_of_cons r rs (u : list N) :
  den (seq_of (r :: rs)) u ↔ ∃ u1 u2, u = u1 ++ u2 ∧ den r u1 ∧ den (seq_of rs) u2.
Proof.
  destruct rs as [|r' rs]; [|done]. simpl. split.
  - intros Hu. exists u, []. by rewrite app_nil_r.
  - intros (u1 & u2 & -> & Hu & ->). by rewrite app_nil_r.
Qed.

Lemma den_chars (l u : list N) :
  den (seq_of (Chr ∘ just <$> l)) u ↔ u = l.
Proof.
  revert u. induction l as [|c l IH]; intros u; [done|].
  rewrite fmap_cons, den_seq_of_cons. split.
  - intros (u1 & u2 & -> & (c' & -> & Hc) & ->%IH).
    unfold just in Hc. apply N.eqb_eq in Hc. by subst.
  - intros ->. exists [c], l. split; [done|split; [|by apply IH]].
    exists c. split; [done|]. apply N.eqb_refl.
Qed.

Lemma den_lit s (u : list N) : den (lit s) u ↔ u = py s.
Proof. apply den_chars. Qed.

(** ** The URL pattern against the shape of the specification *)

Section UrlShape.

Implicit Types (s u : list N).

Lemma url_accepted_iff s :
  url_accepted s = true ↔ ∃ u s', s = u ++ s' ∧ den INSTAGRAM_URL_RE u.
Proof. unfold url_accepted. rewrite bool_decide_eq_true. apply re_match_iff. Qed.

Lemma den_scheme u :
  den (seq_of [lit "http"; Opt (Chr (just 115)); lit "://"]) u ↔
  u = py "http://" ∨ u = py "https://".
Proof.
  rewrite den_seq_of_cons. split.
  - intros (u1 & u2 & -> & ->%den_lit & (u3 & u4 & -> & Hs & ->%den_lit)%den_seq_of_cons).
    destruct Hs as [(c & -> & ->%N.eqb_eq)| ->]; [by right|by left].
  - intros [->| ->].
    + exists (py "http"), (py "://"). split; [done|]. split; [by apply den_lit|].
      apply den_seq_of_cons. exists [], (py "://").
      split; [done|]. split; [by right|by apply den_lit].
    + exists (py "http"), (py "s://"). split; [done|]. split; [by apply den_lit|].
      apply den_seq_of_cons. exists [115], (py "://").
      split; [done|]. split; [left; by exists 115|by apply den_lit].
Qed.

Lemma den_kind u :
  den (Alt (lit "p") (Alt (lit "reel") (Alt (lit "reels") (lit "tv")))) u ↔
  u ∈ [py "p"; py "reel"; py "reels"; py "tv"].
Proof.
  change (den (lit "p") u ∨ den (lit "reel") u ∨ den (lit "reels") u ∨ den (lit "tv") u
          ↔ u ∈ [py "p"; py "reel"; py "reels"; py "tv"]).
  rewrite !den_lit, !elem_of_cons, elem_of_nil. tauto.
Qed.

(** The words of the URL pattern. *)
Lemma den_INSTAGRAM_URL_RE u :
  den INSTAGRAM_URL_RE u ↔
  ∃ scheme www kind ident slash,
    u = scheme ++ www ++ py "instagram.com/" ++ kind ++ py "/" ++ ident ++ slash ∧
    scheme ∈ [[]; py "http://"; py "https://"] ∧
    www ∈ [[]; py "www."] ∧
    kind ∈ [py "p"; py "reel"; py "reels"; py "tv"] ∧
    ident ≠ [] ∧ Forall (fun c => ident_char c = true) ident ∧
    slash ∈ [[]; py "/"].
Proof.
  unfold INSTAGRAM_URL_RE. split.
  - intros (scheme & u1 & -> & Hscheme & H)%den_seq_of_cons.
    apply den_seq_of_cons in H as (www & u2 & -> & Hwww & H).
    apply den_seq_of_cons in H as (host & u3 & -> & ->%den_lit & H).
    apply den_seq_of_cons in H as (kind & u4 & -> & Hkind%den_kind & H).
    apply den_seq_of_cons in H as (sep & u5 & -> & ->%den_lit & H).
    apply den_seq_of_cons in H as (ident & slash & -> & (Hall & Hlen & _) & Hslash).
    exists scheme, www, kind, ident, slash. split; [done|].
    split_and!; [| |done| |done|].
    + destruct Hscheme as [[->| ->]%den_scheme| ->]; repeat constructor.
    + destruct Hwww as [->%den_lit| ->]; repeat constructor.
    + intros ->. simpl in Hlen. lia.
    + destruct Hslash as [(c & -> & ->%N.eqb_eq)| ->]; repeat constructor.
  - intros (scheme & www & kind & ident & slash & -> & Hscheme & Hwww & Hkind
            & Hne & Hall & Hslash).
    apply den_seq_of_cons. exists scheme, (www ++ py "instagram.com/" ++ kind ++ py "/" ++ ident ++ slash).
    split; [done|]. split.
    { apply elem_of_cons in Hscheme as [->|Hscheme]; [by right|]. left.
      apply den_scheme. rewrite !elem_of_cons, elem_of_nil in Hscheme. tauto. }
    apply den_seq_of_cons. exists www, (py "instagram.com/" ++ kind ++ py "/" ++ ident ++ slash).
    split; [done|]. split.
    { apply elem_of_cons in Hwww as [->|Hwww]; [by right|]. left.
      apply den_lit. rewrite !elem_of_cons, elem_of_nil in Hwww. tauto. }
    apply den_seq_of_cons. exists (py "instagram.com/"), (kind ++ py "/" ++ ident ++ slash).
    split; [done|]. split; [by apply den_lit|].
    apply den_seq_of_cons. exists kind, (py "/" ++ ident ++ slash).
    split; [done|]. split; [by apply den_kind|].
    apply den_seq_of_cons. exists (py "/"), (ident ++ slash).
    split; [done|]. split; [by apply den_lit|].
    apply den_seq_of_cons. exists ident, slash.
    split; [done|]. split.
    { split; [done|]. split; [|done]. destruct ident; [done|simpl; lia]. }
    apply elem_of_cons in Hslash as [->|Hslash]; [by right|]. left.
    exists 47. split; [|done].
    rewrite !elem_of_cons, elem_of_nil in Hslash. tauto.
Qed.

Lemma strip_exact (p s r : list N) :
  Spec.strip false p s = Some r ↔ s = p ++ r.
Proof.
  revert s. induction p as [|a p IH]; intros s; simpl.
  - split; [by intros [= ->]|by intros ->].
  - destruct s as [|b s]; [done|]. unfold Spec.same_char.
    destruct (N.eqb_spec a b) as [->|Hne].
    + rewrite IH. split; [by intros ->|by intros [= ->]].
    + split; [done|]. intros [= -> _]. done.
Qed.

Lemma strip_one_of_exact ps (s r : list N) :
  Spec.strip_one_of false ps s = Some r → ∃ p, p ∈ ps ∧ s = py p ++ r.
Proof.
  induction ps as [|p ps IH]; simpl; [done|].
  destruct (Spec.strip false (py p) s) as [r'|] eqn:Hp.
  - intros [= ->]. exists p. split; [constructor|by apply strip_exact].
  - intros (q & Hq & ->)%IH. exists q. split; [by constructor|done].
Qed.

Lemma strip_optional (p s : list N) :
  ∃ q, q ∈ [[]; p] ∧ s = q ++ default s (Spec.strip false p s).
Proof.
  destruct (Spec.strip false p s) as [r|] eqn:Hp; simpl.
  - apply strip_exact in Hp as ->. exists p. split; [repeat constructor|done].
  - exists []. split; [repeat constructor|done].
Qed.

Lemma strip_optional_one_of ps (s : list N) :
  ∃ q, q ∈ [] :: (py <$> ps) ∧ s = q ++ default s (Spec.strip_one_of false ps s).
Proof.
  destruct (Spec.strip_one_of false ps s) as [r|] eqn:Hp; simpl.
  - apply strip_one_of_exact in Hp as (p & Hp & ->). exists (py p).
    split; [|done]. apply list_elem_of_further. by apply list_elem_of_fmap_2.
  - exists []. split; [constructor|done].
Qed.

(** The pattern accepts what has the shape in lower case. *)
Lemma url_shape_accepted s :
  Spec.url_shape false s = true → url_accepted s = true.
Proof.
  unfold Spec.url_shape, Spec.host_shape, Spec.path_shape. cbv zeta.
  intros Hshape. apply url_accepted_iff.
  destruct (strip_optional_one_of ["http://"; "https://"]%string s)
    as (scheme & Hscheme & Hs).
  remember (default s (Spec.strip_one_of false ["http://"; "https://"]%string s))
    as s1 eqn:E1. clear E1. subst s.
  destruct (strip_optional (py "www.") s1) as (www & Hwww & Hs).
  remember (default s1 (Spec.strip false (py "www.") s1)) as s2 eqn:E2.
  clear E2. subst s1.
  destruct (Spec.strip false (py "instagram.com") s2) as [s3|] eqn:H3; [|done].
  apply strip_exact in H3 as ->.
  destruct (Spec.strip_one_of false _ s3) as [[|c rest]|] eqn:H4; try done.
  apply strip_one_of_exact in H4 as (kind & Hkind & ->).
  exists (scheme ++ www ++ py "instagram.com" ++ py kind ++ [c]), rest.
  split; [by rewrite <- !app_assoc|].
  apply den_INSTAGRAM_URL_RE.
  rewrite !elem_of_cons, elem_of_nil in Hkind.
  destruct Hkind as [->|[->|[->|[->|[]]]]];
    [exists scheme, www, (py "p"), [c], []
    |exists scheme, www, (py "reel"), [c], []
    |exists scheme, www, (py "reels"), [c], []
    |exists scheme, www, (py "tv"), [c], []];
    (split; [reflexivity|];
     split_and!; [done|done|repeat constructor|done|by constructor|repeat constructor]).
Qed.

(** What the pattern accepts has the shape, whether or not case counts. *)
Lemma url_accepted_shape nocase s :
  url_accepted s = true → Spec.url_shape nocase s = true.
Proof.
  intros (u & rest & -> & Hu)%url_accepted_iff.
  apply den_INSTAGRAM_URL_RE in Hu
    as (scheme & www & kind & ident & slash & -> & Hscheme & Hwww & Hkind
        & Hne & Hall & Hslash).
  destruct ident as [|c ident]; [done|].
  apply Forall_cons in Hall as [Hc _].
  change (Spec.is_ident_char c = true) in Hc.
  rewrite !elem_of_cons, elem_of_nil in Hscheme.
  rewrite !elem_of_cons, elem_of_nil in Hwww.
  rewrite !elem_of_cons, elem_of_nil in Hkind.
  destruct nocase;
    destruct Hscheme as [->|[->|[->|[]]]], Hwww as [->|[->|[]]],
             Hkind as [->|[->|[->|[->|[]]]]];
    exact Hc.
Qed.

Lemma url_accepted_eq_shape s : url_accepted s = Spec.url_shape false s.
Proof.
  destruct (url_accepted s) eqn:Ha.
  - symmetry. by apply url_accepted_shape.
  - destruct (Spec.url_shape false s) eqn:Hs; [|done].
    apply url_shape_accepted in Hs. congruence.
Qed.

Lemma url_shape_with_scheme s :
  Spec.url_shape false (py "http://" ++ s) = Spec.host_shape false s ∧
  Spec.url_shape false (py "https://" ++ s) = Spec.host_shape false s.
Proof. split; reflexivity. Qed.

End UrlShape.

(** ** Validation of the request: the request model, then the pattern *)

Section Validation.

Context {lib : PyLib}.

(** Past the pattern the handler sends its request, and whatever comes
    of it is not the error for an invalid URL. *)
Lemma instagram_inspect_accepts net payload :
  url_accepted (payload_str payload) = true →
  (instagram_inspect net payload).2 = [get_page (payload_str payload)] ∧
  (instagram_inspect net payload).1 ≠ HTTPException 400 invalid_url_detail.
Proof.
  unfold instagram_inspect. cbv zeta. intros ->. simpl.
  destruct (net (get_page (payload_str payload))) as [|status text]; [done|].
  destruct (Z.eqb_spec status 200) as [->|Hne]; simpl; [|done].
  split; [done|]. unfold parse_page.
  by destruct (assemble_media text) as [[|x l]|e].
Qed.

(** C4 (amended). The pattern compares letters exactly: it accepts the
    strings that begin with the post/reel shape written in lower case
    (optional http or https scheme, optional www., host instagram.com,
    /p/, /reel/, /reels/ or /tv/, an identifier of letters of either case,
    digits, underscore or hyphen), and nothing else. The route applies it
    to the text of the URL that the request model has validated: a string
    HttpUrl refuses is answered by FastAPI without the handler; a string
    it accepts comes with its scheme, and validation accepts it, a request
    being sent to the validated text, exactly when that text after the
    scheme has the shape in lower case, and otherwise rejects it with the
    error 400. *)
Theorem url_validation_exact_case :
  (∀ s : list N, url_accepted s = true ↔ Spec.url_shape false s = true) ∧
  (∀ net (s : list N),
     http_url s = None →
     post_instagram_inspect net s = (RequestValidationError, [])) ∧
  (∀ net (s u : list N),
     http_url s = Some u →
     (∃ rest,
        (u = py "http://" ++ rest ∨ u = py "https://" ++ rest) ∧
        Spec.url_shape false u = Spec.host_shape false rest) ∧
     (Spec.url_shape false u = false →
      post_instagram_inspect net s = (HTTPException 400 invalid_url_detail, [])) ∧
     (Spec.url_shape false u = true →
      (post_instagram_inspect net s).2 = [get_page u] ∧
      (post_instagram_inspect net s).1 ≠ HTTPException 400 invalid_url_detail)).
Proof.
  split_and!.
  - intros s. by rewrite url_accepted_eq_shape.
  - apply post_instagram_inspect_refused.
  - intros net s u Hu. rewrite (post_instagram_inspect_validated _ _ _ Hu).
    split_and!.
    + destruct (http_url_scheme s u Hu) as [rest [-> | ->]]; exists rest;
        (split; [auto|apply url_shape_with_scheme]).
    + intros Hshape. apply instagram_inspect_rejects.
      by rewrite url_accepted_eq_shape.
    + intros Hshape.
      apply (instagram_inspect_accepts net {| payload_url := {| url_text := u |} |}).
      by rewrite url_accepted_eq_shape.
Qed.

(** C5 (amended). The pattern accepts https://www.instagram.com/p/
    followed by any non-empty identifier of letters, digits, underscores
    or hyphens and a slash, and the route sends its request for such a
    string whenever the request model takes it as it is. A string that the
    request model refuses, as it does the empty string, is answered by
    FastAPI before the handler runs. For every other string, when the
    validated text does not have the post/reel shape of the specification,
    with or without regard to case, the handler ends with the error 400
    and its message. No request is sent in either case. *)
Theorem invalid_url_rejected_before_fetch :
  (∀ ident : list N,
     ident ≠ [] → Forall (fun c => Spec.is_ident_char c = true) ident →
     url_accepted (py "https://www.instagram.com/p/" ++ ident ++ py "/") = true ∧
     ∀ net,
       http_url (py "https://www.instagram.com/p/" ++ ident ++ py "/")
         = Some (py "https://www.instagram.com/p/" ++ ident ++ py "/") →
       (post_instagram_inspect net
          (py "https://www.instagram.com/p/" ++ ident ++ py "/")).2
         = [get_page (py "https://www.instagram.com/p/" ++ ident ++ py "/")]) ∧
  (∀ net (s : list N),
     http_url s = None →
     post_instagram_inspect net s = (RequestValidationError, [])) ∧
  (∀ net (s u : list N),
     http_url s = Some u →
     Spec.url_shape true u = false ∨ Spec.url_shape false u = false →
     post_instagram_inspect net s
       = (HTTPException 400 "Please provide a valid Instagram post/reel URL.", [])) ∧
  (∀ net payload,
     Spec.url_shape true (payload_str payload) = false
     ∨ Spec.url_shape false (payload_str payload) = false →
     instagram_inspect net payload
       = (HTTPException 400 "Please provide a valid Instagram post/reel URL.", [])).
Proof.
  assert (∀ net payload,
     Spec.url_shape true (payload_str payload) = false
     ∨ Spec.url_shape false (payload_str payload) = false →
     instagram_inspect net payload = (HTTPException 400 invalid_url_detail, []))
    as Hreject.
  { intros net payload Hs. apply instagram_inspect_rejects.
    destruct (url_accepted (payload_str payload)) eqn:Ha; [|done].
    destruct Hs as [Hs|Hs]; by rewrite (url_accepted_shape _ _ Ha) in Hs. }
  split_and!.
  - intros ident Hne Hall.
    assert (url_accepted (py "https://www.instagram.com/p/" ++ ident ++ py "/") = true)
      as Hok.
    { apply url_accepted_iff.
      exists (py "https://www.instagram.com/p/" ++ ident ++ py "/"), [].
      split; [by rewrite app_nil_r|]. apply den_INSTAGRAM_URL_RE.
      exists (py "https://"), (py "www."), (py "p"), ident, (py "/").
      split; [reflexivity|].
      split_and!; [repeat constructor..|done|exact Hall|repeat constructor]. }
    split; [exact Hok|]. intros net Hu.
    rewrite (post_instagram_inspect_validated _ _ _ Hu).
    by apply (instagram_inspect_accepts net
                {| payload_url := {| url_text := _ |} |}).
  - apply post_instagram_inspect_refused.
  - intros net s u Hu Hs. rewrite (post_instagram_inspect_validated _ _ _ Hu).
    by apply Hreject.
  - exact Hreject.
Qed.

End Validation.

Section Decoding.

Context {lib : PyLib}.


(** An escaped slash survives the codec as it is and is then replaced. *)
Lemma escaped_slash_decoded (s : list N) :
  ue_run Plain (py "\/" ++ s) = (fun r => py "\/" ++ r) <$> ue_run Plain s.
Proof. reflexivity. Qed.

Lemma escaped_slash_replaced (s : list N) :
  replace (py "\/") (py "/") (py "\/" ++ s)
    = py "/" ++ replace (py "\/") (py "/") s.
Proof. reflexivity. Qed.



End Decoding.

(** * Further properties of the handler *)

Section HandlerMore.

Context {lib : PyLib}.

(** When the request raises, the handler answers 502 with its message,
    having sent that one request. *)
Theorem transport_failure_is_502 net payload :
  url_accepted (payload_str payload) = true →
  net (get_page (payload_str payload)) = RequestException →
  instagram_inspect net payload
    = (HTTPException 502 "Failed to fetch the Instagram page.",
       [get_page (payload_str payload)]).
Proof. unfold instagram_inspect. cbv zeta. by intros -> ->. Qed.

(** The handler sends no request for a URL the pattern rejects, and
    otherwise exactly one, to the URL it was given, with the fixed headers
    and a timeout of 12 seconds, whatever the site answers. *)
Theorem at_most_one_request net payload :
  (url_accepted (payload_str payload) = false
   ∧ (instagram_inspect net payload).2 = []) ∨
  (url_accepted (payload_str payload) = true ∧
   (instagram_inspect net payload).2
     = [{| req_url := url_text (payload_url payload);
           req_headers := browser_headers; req_timeout := 12 |}]).
Proof.
  unfold instagram_inspect. cbv zeta.
  destruct (url_accepted (payload_str payload)); simpl; [right|by left].
  split; [done|].
  destruct (net (get_page (payload_str payload))) as [|status text]; [done|].
  by destruct (negb (status =? 200)%Z).
Qed.

(** An error of the handler never carries the status 200, and it is one
    of four: 400 for a rejected URL, 502 for a failed request, the status
    of the site when that is not 200, or 422 for an empty list. *)
Theorem error_is_one_of_four net payload status detail :
  (instagram_inspect net payload).1 = HTTPException status detail →
  status ≠ 200%Z ∧
  ((status = 400%Z ∧ detail = invalid_url_detail
    ∧ url_accepted (payload_str payload) = false) ∨
   (status = 502%Z ∧ detail = fetch_failed_detail ∧
    net (get_page (payload_str payload)) = RequestException) ∨
   (detail = upstream_error_detail ∧
    ∃ text, net (get_page (payload_str payload)) = Response status text) ∨
   (status = 422%Z ∧ detail = no_media_detail ∧
    ∃ html,
      net (get_page (payload_str payload)) = Response 200 html
      ∧ assemble_media html = Ret [])).
Proof.
  unfold instagram_inspect. cbv zeta.
  destruct (url_accepted (payload_str payload)); simpl.
  - destruct (net (get_page (payload_str payload))) as [|code text]; simpl.
    + intros [= <- <-]. split; [done|]. right. left. done.
    + destruct (Z.eqb_spec code 200) as [->|Hne]; simpl.
      * unfold parse_page.
        destruct (assemble_media text) as [[|x l]|e] eqn:Ha; try discriminate.
        intros [= <- <-]. split; [done|]. do 3 right.
        split_and!; [done|done|by exists text].
      * intros [= <- <-]. split; [done|]. do 2 right. left.
        split; [done|by exists text].
  - intros [= <- <-]. split; [done|]. left. done.
Qed.

(** The pattern looks at a prefix only: what is accepted stays accepted
    with anything appended. *)
Theorem url_accepted_with_suffix (s t : list N) :
  url_accepted s = true → url_accepted (s ++ t) = true.
Proof.
  intros (u & s' & -> & Hu)%url_accepted_iff. apply url_accepted_iff.
  exists u, (s' ++ t). by rewrite app_assoc.
Qed.

(** Every tag was put there by a match of one of the two scans: its key
    is the lower-cased key of the match and its value the unescaped
    content. *)
Lemma store_tags_provenance (tags : gmap (list N) (list N)) l (k v : list N) :
  foldl store_tag tags l !! k = Some v →
  tags !! k = Some v ∨
  ∃ key content, (key, content) ∈ l ∧ k = lower key ∧ v = unescape content.
Proof.
  revert tags. induction l as [|[key content] l IH]; intros tags; simpl.
  - by left.
  - intros [Hk|(key' & content' & Hin & Hkv)]%IH.
    + unfold store_tag in Hk. simpl in Hk.
      destruct (decide (lower key = k)) as [<-|Hne].
      * rewrite lookup_insert_eq in Hk. injection Hk as <-.
        right. exists key, content. split; [constructor|done].
      * rewrite lookup_insert_ne in Hk by done. by left.
    + right. exists key', content'. split; [by constructor|done].
Qed.

Theorem tag_comes_from_a_match html (k v : list N) :
  extract_meta_tags html !! k = Some v →
  ∃ key content,
    (key, content) ∈ findall meta_pattern html ++ findall name_pattern html ∧
    k = lower key ∧ v = unescape content.
Proof.
  rewrite extract_meta_tags_order.
  intros [Hk|Hmatch]%store_tags_provenance; [|done].
  by rewrite lookup_empty in Hk.
Qed.

End HandlerMore.

(** * Further properties of the assembly *)

Section AssemblyMore.

Context {lib : PyLib}.
Implicit Types (media added : list MediaItem) (ms : list (gmap nat (list N))).



Lemma primary_media_raises (tags : gmap (list N) (list N)) e :
  primary_media tags = Raise e → e = ValidationError.
Proof.
  destruct (og_video tags) as [[|c v]|] eqn:Hv.
  - destruct (og_image tags) as [[|d i]|] eqn:Hi.
    + by rewrite primary_media_none by (by rewrite ?Hv, ?Hi).
    + rewrite (primary_media_image _ (d :: i)) by (by rewrite ?Hv, ?Hi).
      destruct (validate_cases (d :: i)) as [[u Hu]|Hu].
      * by rewrite (MediaItem_new_ret _ _ _ _ _ Hu (validate_optional_same _ _ Hu)).
      * rewrite MediaItem_new_raise by auto. by intros [= <-].
    + by rewrite primary_media_none by (by rewrite ?Hv, ?Hi).
  - destruct (validate_cases (c :: v)) as [[u Hu]|Hu];
      [|rewrite (primary_media_video_raises _ (c :: v)) by auto; by intros [= <-]].
    destruct (validate_optional_cases (og_image tags)) as [[thumb Hthumb]|Hthumb];
      [|rewrite (primary_media_video_raises _ (c :: v)) by auto; by intros [= <-]].
    by rewrite (primary_media_video _ (c :: v) u thumb).
  - destruct (og_image tags) as [[|d i]|] eqn:Hi.
    + by rewrite primary_media_none by (by rewrite ?Hv, ?Hi).
    + rewrite (primary_media_image _ (d :: i)) by (by rewrite ?Hv, ?Hi).
      destruct (validate_cases (d :: i)) as [[u Hu]|Hu].
      * by rewrite (MediaItem_new_ret _ _ _ _ _ Hu (validate_optional_same _ _ Hu)).
      * rewrite MediaItem_new_raise by auto. by intros [= <-].
    + by rewrite primary_media_none by (by rewrite ?Hv, ?Hi).
Qed.

(** Why a match yields no item: its value does not decode, or HttpUrl
    refuses the decoded value or, for a video, the primary image. *)
Lemma item_of_match_raises og m e :
  item_of_match og m = Raise e ↔
  candidate_of (group m 2) = Raise e
  ∨ ∃ candidate,
      candidate_of (group m 2) = Ret candidate ∧ e = ValidationError ∧
      (validate candidate = Raise ValidationError
       ∨ (group m 1 = py "video_url"
          ∧ validate_optional og = Raise ValidationError)).
Proof.
  unfold item_of_match.
  destruct (candidate_of (group m 2)) as [c|e'] eqn:Hc;
    rewrite ?res_bind_ret, ?res_bind_raise.
  - destruct (str_eqb (group m 1) (py "video_url")) eqn:Hkind.
    + apply str_eqb_true in Hkind. split.
      * intros Hx. right. exists c. split; [done|].
        destruct (validate_cases c) as [[u Hu]|Hu];
          [|rewrite MediaItem_new_raise in Hx by auto; injection Hx as <-; auto].
        destruct (validate_optional_cases og) as [[thumb Hthumb]|Hthumb];
          [|rewrite MediaItem_new_raise in Hx by auto; injection Hx as <-; auto].
        by rewrite (MediaItem_new_ret _ _ _ _ _ Hu Hthumb) in Hx.
      * intros [[=]|(c' & [= <-] & -> & [Hbad|[_ Hbad]])];
          apply MediaItem_new_raise; auto.
    + split.
      * intros Hx. right. exists c. split; [done|].
        destruct (validate_cases c) as [[u Hu]|Hu];
          [|rewrite MediaItem_new_raise in Hx by auto; injection Hx as <-; auto].
        by rewrite (MediaItem_new_ret _ _ _ _ _ Hu (validate_optional_same _ _ Hu))
          in Hx.
      * intros [[=]|(c' & [= <-] & -> & [Hbad|[Hvideo _]])].
        -- apply MediaItem_new_raise; auto.
        -- apply str_eqb_true in Hvideo. congruence.
  - split.
    + intros [= <-]. by left.
    + intros [[= <-]|(c' & [=] & _)]. done.
Qed.

(** The assembly dies of an exception exactly at the first thing that
    fails, in the order of the code: the item of the tags, which can only
    fail the validation, then the inline matches in the order of the page,
    each with the exception of the codec when its value does not decode
    and with ValidationError when HttpUrl refuses the decoded value or,
    for a video, the primary image. A page without inline fragment yields
    what its tags yield. *)
Theorem assembly_raises_at_first_bad_value html :
  (∀ e,
     assemble_media html = Raise e ↔
     primary_media (extract_meta_tags html) = Raise e
     ∨ ((∃ media, primary_media (extract_meta_tags html) = Ret media) ∧
        ∃ before m after,
          finditer inline_pattern html = before ++ m :: after ∧
          Forall (fun m' => ∃ x,
                    item_of_match (og_image (extract_meta_tags html)) m' = Ret x)
            before ∧
          item_of_match (og_image (extract_meta_tags html)) m = Raise e)) ∧
  (∀ e, primary_media (extract_meta_tags html) = Raise e → e = ValidationError) ∧
  (∀ m e,
     item_of_match (og_image (extract_meta_tags html)) m = Raise e ↔
     candidate_of (group m 2) = Raise e
     ∨ ∃ candidate,
         candidate_of (group m 2) = Ret candidate ∧ e = ValidationError ∧
         (validate candidate = Raise ValidationError
          ∨ (group m 1 = py "video_url"
             ∧ validate_optional (og_image (extract_meta_tags html))
                 = Raise ValidationError))) ∧
  (finditer inline_pattern html = [] →
   assemble_media html = primary_media (extract_meta_tags html)).
Proof.
  split_and!.
  - intros e. unfold assemble_media.
    destruct (primary_media (extract_meta_tags html)) as [media|e'] eqn:Hp;
      rewrite ?res_bind_ret, ?res_bind_raise.
    + rewrite inline_loop_appends.
      destruct (mapM _ (finditer inline_pattern html)) as [items|e'] eqn:Hitems;
        rewrite ?res_bind_ret, ?res_bind_raise.
      * split; [done|]. intros [[=]|[_ Hm]].
        apply mapM_raise in Hm. congruence.
      * split.
        -- intros [= <-]. right. split; [by exists media|]. by apply mapM_raise.
        -- intros [[=]|[_ Hm]]. apply mapM_raise in Hm. congruence.
    + split; [intros [= <-]; by left|].
      intros [[= <-]|[[media [=]] _]]. done.
  - apply primary_media_raises.
  - intros m e. apply item_of_match_raises.
  - unfold assemble_media. intros ->.
    destruct (primary_media (extract_meta_tags html)) as [media|e]; done.
Qed.

(** The urls of an assembled list are the url of the item of the tags, if
    there is one, followed by one url for every inline fragment in the
    order of the page, the decoded value as HttpUrl holds it: a value that
    comes again is listed again, so the list has exactly as many items
    after that of the tags as the page has inline fragments. *)
Theorem assembled_urls_in_page_order html l :
  assemble_media html = Ret l →
  ∃ media cs,
    primary_media (extract_meta_tags html) = Ret media ∧
    (length media ≤ 1)%nat ∧
    Forall2 (fun m c => ∃ d, candidate_of (group m 2) = Ret d ∧ http_url d = Some c)
      (finditer inline_pattern html) cs ∧
    (url_text ∘ url) <$> l = ((url_text ∘ url) <$> media) ++ cs ∧
    length l = (length media + length (finditer inline_pattern html))%nat.
Proof.
  intros (media & items & Hmedia & Hitems & ->)%assemble_media_inv.
  exists media, ((url_text ∘ url) <$> items). split_and!.
  - done.
  - apply primary_media_inv in Hmedia
      as [(-> & _)|[(v & u & thumb & _ & _ & _ & _ & ->)|(i & u & _ & _ & _ & _ & ->)]];
      simpl; lia.
  - apply Forall2_fmap_r. eapply Forall2_impl; [exact Hitems|].
    intros m x (c & u & thumb & Hc & Hu & _ & ->)%item_of_match_inv.
    exists c. split; [done|]. apply validate_ret in Hu.
    unfold inline_item. by destruct (str_eqb _ _).
  - by rewrite fmap_app.
  - rewrite length_app. by rewrite (Forall2_length _ _ _ Hitems).
Qed.

End AssemblyMore.

(** * Further properties of the decoding of inline values *)

Section DecodingMore.

Context {lib : PyLib}.

(** A byte of a multi-byte sequence is 128 or more. *)
Ltac high_byte :=
  repeat match goal with
         | |- context [?a / ?b] => generalize (a / b); intro
         | |- context [?a mod ?b] => generalize (a mod b); intro
         end;
  lia.

Lemma escape_slashes_cons c (t : list N) :
  escape_slashes (c :: t)
    = if 47 =? c then py "\/" ++ escape_slashes t else c :: escape_slashes t.
Proof.
  change (escape_slashes (c :: t))
    with (if (47 =? c) && true then py "\/" ++ escape_slashes t
          else c :: escape_slashes t).
  by rewrite andb_true_r.
Qed.

Lemma escape_slashes_app (x y : list N) :
  Forall (fun c => c ≠ 47) x → escape_slashes (x ++ y) = x ++ escape_slashes y.
Proof.
  induction 1 as [|c x Hc _ IH]; [done|].
  rewrite <- app_comm_cons, escape_slashes_cons, IH.
  destruct (N.eqb_spec 47 c); [congruence|done].
Qed.

Lemma encode_utf8_cons c (t : list N) :
  encode_utf8 (c :: t) = b ← utf8_char c; bs ← encode_utf8 t; Ret (b ++ bs).
Proof. reflexivity. Qed.

Lemma encode_utf8_app (x y : list N) :
  encode_utf8 (x ++ y) = bx ← encode_utf8 x; by_ ← encode_utf8 y; Ret (bx ++ by_).
Proof.
  induction x as [|c x IH].
  - change (encode_utf8 ([] ++ y)) with (encode_utf8 y).
    change (encode_utf8 []) with (Ret (@nil N)). rewrite res_bind_ret.
    by destruct (encode_utf8 y).
  - rewrite <- app_comm_cons, !encode_utf8_cons, IH.
    destruct (utf8_char c) as [bc|e]; [|done]. rewrite !res_bind_ret.
    destruct (encode_utf8 x) as [bx|e]; [|done]. rewrite !res_bind_ret.
    destruct (encode_utf8 y) as [by_|e]; [|done]. rewrite !res_bind_ret.
    by rewrite app_assoc.
Qed.

(** The bytes of a character other than the backslash: none is a
    backslash, none is a slash unless the character is one, there is one
    byte, the character itself, when it is ASCII, and more otherwise. *)
Lemma utf8_char_bytes c (b : list N) :
  utf8_char c = Ret b →
  (c ≠ 92 → Forall (fun x => x ≠ 92) b) ∧
  (c ≠ 47 → Forall (fun x => x ≠ 47) b) ∧
  (c < 128 → b = [c]) ∧ (128 ≤ c → (2 ≤ length b)%nat) ∧ (1 ≤ length b)%nat.
Proof.
  unfold utf8_char. intros Hb.
  destruct (N.ltb_spec c 0x80); [injection Hb as <-|].
  { split_and!; [by repeat constructor|by repeat constructor|done|lia|simpl; lia]. }
  destruct (N.ltb_spec c 0x800); [injection Hb as <-|].
  { split_and!; [intros _; repeat constructor; high_byte
                |intros _; repeat constructor; high_byte
                |lia|simpl; lia|simpl; lia]. }
  destruct ((0xD800 <=? c) && (c <=? 0xDFFF)); [discriminate|].
  destruct (N.ltb_spec c 0x10000); [injection Hb as <-|].
  { split_and!; [intros _; repeat constructor; high_byte
                |intros _; repeat constructor; high_byte
                |lia|simpl; lia|simpl; lia]. }
  destruct (c <=? 0x10FFFF); [injection Hb as <-|discriminate].
  split_and!; [intros _; repeat constructor; high_byte
              |intros _; repeat constructor; high_byte
              |lia|simpl; lia|simpl; lia].
Qed.

Lemma encode_utf8_escaped (t b : list N) :
  Forall (fun c => c ≠ 92) t → encode_utf8 t = Ret b →
  encode_utf8 (escape_slashes t) = Ret (escape_slashes b) ∧
  Forall (fun x => x ≠ 92) b.
Proof.
  intros Ht. revert b. induction Ht as [|c t Hc _ IH]; intros b.
  - by intros [= <-].
  - rewrite encode_utf8_cons.
    destruct (utf8_char c) as [bc|e] eqn:Hbc; [|discriminate]. rewrite res_bind_ret.
    destruct (encode_utf8 t) as [bt|e]; [|discriminate]. rewrite res_bind_ret.
    intros [= <-]. destruct (IH bt eq_refl) as [Henc Hbt].
    destruct (utf8_char_bytes c bc Hbc) as (Hno92 & Hno47 & Hascii & _).
    split; [|apply Forall_app; split; [by apply Hno92|done]].
    rewrite escape_slashes_cons. destruct (N.eqb_spec 47 c) as [<-|Hne].
    + rewrite (Hascii ltac:(lia)).
      change (py "\/" ++ escape_slashes t) with (92 :: 47 :: escape_slashes t).
      rewrite !encode_utf8_cons.
      change (utf8_char 92) with (Ret [92]). change (utf8_char 47) with (Ret [47]).
      rewrite !res_bind_ret, Henc, !res_bind_ret.
      change ([47] ++ bt) with (47 :: bt). by rewrite escape_slashes_cons.
    + rewrite encode_utf8_cons, Hbc, res_bind_ret, Henc, res_bind_ret.
      rewrite escape_slashes_app; [done|]. apply Hno47. congruence.
Qed.

Lemma ue_run_plain_cons c (s : list N) :
  c ≠ 92 → ue_run Plain (c :: s) = cons c <$> ue_run Plain s.
Proof.
  intros Hc.
  change (ue_run Plain (c :: s))
    with (if c =? 92 then ue_run Esc s else cons c <$> ue_run Plain s).
  by destruct (N.eqb_spec c 92).
Qed.

(** The codec leaves escaped slashes as they are. *)
Lemma ue_run_escaped (b rest : list N) :
  Forall (fun x => x ≠ 92) b →
  ue_run Plain (escape_slashes b ++ rest)
    = (fun r => escape_slashes b ++ r) <$> ue_run Plain rest.
Proof.
  induction 1 as [|c b Hc _ IH].
  - change (escape_slashes [] ++ rest) with rest. by destruct (ue_run Plain rest).
  - rewrite escape_slashes_cons. destruct (N.eqb_spec 47 c) as [<-|Hne].
    + rewrite <- app_assoc, escaped_slash_decoded, IH.
      by destruct (ue_run Plain rest).
    + rewrite <- app_comm_cons, ue_run_plain_cons, IH by done.
      by destruct (ue_run Plain rest).
Qed.

Lemma replace_cons_other c (r : list N) :
  c ≠ 92 →
  replace (py "\/") (py "/") (c :: r) = c :: replace (py "\/") (py "/") r.
Proof.
  intros Hc.
  change (replace (py "\/") (py "/") (c :: r))
    with (if (92 =? c) && starts_with [47] r
          then py "/" ++ replace_from (py "\/") (py "/") 1 r
          else c :: replace (py "\/") (py "/") r).
  destruct (N.eqb_spec 92 c); [congruence|done].
Qed.

Lemma replace_escaped (b r : list N) :
  Forall (fun x => x ≠ 92) b →
  replace (py "\/") (py "/") (escape_slashes b ++ r)
    = b ++ replace (py "\/") (py "/") r.
Proof.
  induction 1 as [|c b Hc _ IH]; [done|].
  rewrite escape_slashes_cons. destruct (N.eqb_spec 47 c) as [<-|Hne].
  - rewrite <- app_assoc, escaped_slash_replaced, IH. done.
  - rewrite <- !app_comm_cons, replace_cons_other, IH by done. done.
Qed.

Lemma encode_utf8_length (t b : list N) :
  encode_utf8 t = Ret b →
  (length t ≤ length b)%nat ∧
  (Exists (fun c => 128 ≤ c) t → (length t < length b)%nat) ∧
  (Forall (fun c => c < 128) t → b = t).
Proof.
  revert b. induction t as [|c t IH]; intros b.
  - intros [= <-]. split_and!; [done|by intros ?%Exists_nil|done].
  - rewrite encode_utf8_cons.
    destruct (utf8_char c) as [bc|e] eqn:Hbc; [|discriminate]. rewrite res_bind_ret.
    destruct (encode_utf8 t) as [bt|e]; [|discriminate]. rewrite res_bind_ret.
    intros [= <-]. destruct (IH bt eq_refl) as (Hle & Hlt & Heq).
    destruct (utf8_char_bytes c bc Hbc) as (_ & _ & H3 & H2 & H1).
    rewrite length_app. cbn [length]. split_and!.
    + lia.
    + intros [Hc|Ht]%Exists_cons; [specialize (H2 Hc); lia|specialize (Hlt Ht); lia].
    + intros [Hc Ht]%Forall_cons. by rewrite (H3 Hc), (Heq Ht).
Qed.

(** An address without backslash, written with escaped slashes as inline
    JSON has it, decodes to its UTF-8 bytes read as characters: to itself
    when it is ASCII, and to something else, a longer string, when it has
    a character outside ASCII. *)
Theorem escaped_address_decodes (t b : list N) :
  Forall (fun c => c ≠ 92) t →
  encode_utf8 t = Ret b →
  candidate_of (escape_slashes t) = Ret b ∧
  (Forall (fun c => c < 128) t → b = t) ∧
  (Exists (fun c => 128 ≤ c) t → (length t < length b)%nat).
Proof.
  intros Ht Hb. destruct (encode_utf8_escaped t b Ht Hb) as [Henc Hno].
  destruct (encode_utf8_length t b Hb) as (_ & Hlt & Heq).
  split; [|done].
  unfold candidate_of, decode_unicode_escape. rewrite Henc, res_bind_ret.
  rewrite <- (app_nil_r (escape_slashes b)), (ue_run_escaped b [] Hno).
  change (ue_run Plain []) with (Ret (@nil N)). rewrite res_fmap_ret, res_bind_ret.
  by rewrite (replace_escaped b [] Hno), !app_nil_r.
Qed.

(** A value that ends with a backslash after such an address, as happens
    when the JSON text has an escaped quote, does not decode, and a page
    whose first inline value is one makes the handler die: of the
    exception of the codec when the tags yield their list, and of
    ValidationError when HttpUrl refuses a value of the tags, which comes
    first. *)
Theorem trailing_backslash_raises (t b : list N) :
  Forall (fun c => c ≠ 92) t →
  encode_utf8 t = Ret b →
  candidate_of (escape_slashes t ++ py "\") = Raise UnicodeDecodeError ∧
  (∀ html m after,
     finditer inline_pattern html = m :: after →
     group m 2 = escape_slashes t ++ py "\" →
     ((∃ media, primary_media (extract_meta_tags html) = Ret media) →
      parse_page html = Uncaught UnicodeDecodeError) ∧
     (primary_media (extract_meta_tags html) = Raise ValidationError →
      parse_page html = Uncaught ValidationError)).
Proof.
  intros Ht Hb. destruct (encode_utf8_escaped t b Ht Hb) as [Henc Hno].
  assert (candidate_of (escape_slashes t ++ py "\") = Raise UnicodeDecodeError)
    as Hraise.
  { unfold candidate_of, decode_unicode_escape.
    rewrite encode_utf8_app, Henc, res_bind_ret.
    change (encode_utf8 (py "\")) with (Ret (py "\")). rewrite res_bind_ret.
    rewrite res_bind_ret, (ue_run_escaped b (py "\") Hno). reflexivity. }
  split; [exact Hraise|].
  intros html m after Hms Hm. unfold parse_page, assemble_media. split.
  - intros [media ->]. rewrite res_bind_ret, Hms. cbn [inline_loop].
    rewrite inline_step_appends. unfold item_of_match. by rewrite Hm, Hraise.
  - by intros ->.
Qed.

End DecodingMore.

(** * What the inline pattern puts into its groups *)

Section Groups.

Context {A : Type}.

(** A successful run of the matcher consumed a word of the pattern and
    recorded in each group the part of the word it spans. *)
Lemma exec_sound_groups r (s : list N) (g : gmap nat (list N))
    (k : list N → gmap nat (list N) → option A) x :
  exec r s g k = Some x →
  ∃ u s' g', s = u ++ s' ∧ den_groups r u g g' ∧ k s' g' = Some x.
Proof.
  revert s g k x. induction r as [|p|r1 IH1 r2 IH2|r1 IH1 r2 IH2|r1 IH1|p lo hi|i r1 IH1];
    intros s g k x; simpl.
  - intros Hk. by exists [], s, g.
  - destruct s as [|c s]; [discriminate|].
    destruct (p c) eqn:Hp; [|discriminate]. intros Hk.
    exists [c], s, g. split; [done|]. split; [|done]. split; [by exists c|done].
  - intros (u1 & s1 & g1 & -> & Hu1 & (u2 & s2 & g2 & -> & Hu2 & Hk)%IH2)%IH1.
    exists (u1 ++ u2), s2, g2. split; [by rewrite app_assoc|]. split; [|done].
    by exists u1, u2, g1.
  - destruct (exec r1 s g k) as [y|] eqn:H1.
    + intros [= ->]. destruct (IH1 _ _ _ _ H1) as (u & s' & g' & -> & Hu & Hk).
      exists u, s', g'. split; [done|]. split; [by left|done].
    + intros (u & s' & g' & -> & Hu & Hk)%IH2.
      exists u, s', g'. split; [done|]. split; [by right|done].
  - destruct (exec r1 s g k) as [y|] eqn:H1.
    + intros [= ->]. destruct (IH1 _ _ _ _ H1) as (u & s' & g' & -> & Hu & Hk).
      exists u, s', g'. split; [done|]. split; [by left|done].
    + intros Hk. exists [], s, g. split; [done|]. split; [by right|done].
  - intros (u & s' & -> & Hu & Hk)%rep_sound. by exists u, s', g.
  - intros (u & s' & g' & -> & Hu & Hk)%IH1.
    rewrite length_app, Nat.add_sub, take_app_length in Hk.
    exists u, s', (<[i := u]> g'). split; [done|]. split; [by exists g'|done].
Qed.

End Groups.

Lemma den_groups_seq_of_cons r rs (u : list N) (g g' : gmap nat (list N)) :
  den_groups (seq_of (r :: rs)) u g g' →
  ∃ u1 u2 g1, u = u1 ++ u2 ∧ den_groups r u1 g g1 ∧ den_groups (seq_of rs) u2 g1 g'.
Proof.
  destruct rs as [|r' rs]; [|done]. simpl.
  intros Hu. exists u, [], g'. by rewrite app_nil_r.
Qed.

Lemma den_groups_chars (l u : list N) (g g' : gmap nat (list N)) :
  den_groups (seq_of (Chr ∘ just <$> l)) u g g' → u = l ∧ g' = g.
Proof.
  revert u g. induction l as [|c l IH]; intros u g; [done|].
  rewrite fmap_cons.
  intros (u1 & u2 & g1 & -> & [(c' & -> & Hc) ->] & [-> ->]%IH)%den_groups_seq_of_cons.
  unfold just in Hc. apply N.eqb_eq in Hc. by subst.
Qed.

Lemma den_groups_lit s (u : list N) (g g' : gmap nat (list N)) :
  den_groups (lit s) u g g' → u = py s ∧ g' = g.
Proof. apply den_groups_chars. Qed.

(** Every match [scan] reports is a match of the pattern at some place. *)
Lemma scan_elem r skip (s : list N) (m : gmap nat (list N)) :
  m ∈ scan r skip s → ∃ s0 rest, re_match r s0 = Some (rest, m).
Proof.
  revert skip. induction s as [|c s IH]; intros skip; simpl.
  - by intros ?%elem_of_nil.
  - destruct skip as [|n]; [|apply IH].
    destruct (re_match r (c :: s)) as [[rest g]|] eqn:Hm; [|apply IH].
    intros [->|Hin]%elem_of_cons; [by exists (c :: s), rest|by eapply IH].
Qed.

(** The groups of a match of the inline pattern: the key is one of the
    two, and the value is the scheme, a colon, two escaped slashes and at
    least one character, none of them a double quote. *)
Lemma inline_match_groups (s rest : list N) (m : gmap nat (list N)) :
  re_match inline_pattern s = Some (rest, m) →
  (group m 1 = py "video_url" ∨ group m 1 = py "display_url") ∧
  ∃ tail,
    (group m 2 = py "http:\/\/" ++ tail ∨ group m 2 = py "https:\/\/" ++ tail) ∧
    tail ≠ [] ∧ Forall (fun c => c ≠ 34) tail.
Proof.
  unfold re_match. intros (u & s' & g' & -> & Hu & [= <- <-])%exec_sound_groups.
  unfold inline_pattern in Hu.
  apply den_groups_seq_of_cons in Hu as (u1 & r1 & g1 & -> & [_ ->] & Hu).
  apply den_groups_seq_of_cons in Hu as (kind & r2 & g2 & -> & (g2' & Hkind & ->) & Hu).
  apply den_groups_seq_of_cons in Hu as (u3 & r3 & g3 & -> & [_ ->] & Hu).
  apply den_groups_seq_of_cons in Hu as (u4 & r4 & g4 & -> & [_ ->]%den_groups_lit & Hu).
  apply den_groups_seq_of_cons in Hu as (u5 & r5 & g5 & -> & [_ ->] & Hu).
  apply den_groups_seq_of_cons in Hu as (value & r6 & g6 & -> & (g6' & Hvalue & ->) & Hu).
  destruct Hu as [_ ->].
  apply den_groups_seq_of_cons in Hvalue
    as (v1 & w1 & h1 & -> & [-> ->]%den_groups_lit & Hvalue).
  apply den_groups_seq_of_cons in Hvalue as (v2 & w2 & h2 & -> & Hs & Hvalue).
  apply den_groups_seq_of_cons in Hvalue
    as (v3 & tail & h3 & -> & [-> ->]%den_groups_lit & [(Hall & Hlen & _) ->]).
  assert (h2 = <[1%nat := kind]> g2' ∧ (v2 = [] ∨ v2 = py "s")) as [-> Hv2].
  { destruct Hs as [[(c & -> & ->%N.eqb_eq) ->]|[-> ->]]; [by split; [|right]|].
    by split; [|left]. }
  unfold group. rewrite lookup_insert_ne, !lookup_insert_eq by done.
  cbn [default from_option id].
  split.
  - destruct Hkind as [[-> _]%den_groups_lit|[-> _]%den_groups_lit]; [by left|by right].
  - exists tail. split_and!.
    + destruct Hv2 as [->| ->]; [by left|by right].
    + intros ->. simpl in Hlen. lia.
    + eapply Forall_impl; [exact Hall|]. intros c Hc ->. done.
Qed.

Section InlineUrls.

Context {lib : PyLib}.

(** A value that starts as the pattern demands decodes, if it decodes,
    to an address that starts with the scheme and two slashes. *)
Lemma candidate_after_escaped (b tail c : list N) :
  Forall (fun x => x ≠ 92) b →
  encode_utf8 (escape_slashes b) = Ret (escape_slashes b) →
  candidate_of (escape_slashes b ++ tail) = Ret c → ∃ rest, c = b ++ rest.
Proof.
  intros Hb Henc. unfold candidate_of, decode_unicode_escape.
  rewrite encode_utf8_app, Henc, res_bind_ret.
  destruct (encode_utf8 tail) as [bt|e]; [|discriminate]. rewrite !res_bind_ret.
  rewrite (ue_run_escaped b bt Hb).
  destruct (ue_run Plain bt) as [r|e]; [|discriminate].
  rewrite res_fmap_ret, res_bind_ret, (replace_escaped b r Hb).
  intros [= <-]. by eexists.
Qed.

(** A value that starts as the pattern demands decodes, if it decodes,
    to an address that starts with the scheme and two slashes. *)
Lemma candidate_has_scheme (tail c : list N) :
  (candidate_of (py "http:\/\/" ++ tail) = Ret c → ∃ rest, c = py "http://" ++ rest) ∧
  (candidate_of (py "https:\/\/" ++ tail) = Ret c → ∃ rest, c = py "https://" ++ rest).
Proof.
  split.
  - change (py "http:\/\/") with (escape_slashes (py "http://")).
    apply candidate_after_escaped; [|vm_compute; reflexivity].
    repeat (constructor; [discriminate|]). constructor.
  - change (py "https:\/\/") with (escape_slashes (py "https://")).
    apply candidate_after_escaped; [|vm_compute; reflexivity].
    repeat (constructor; [discriminate|]). constructor.
Qed.

(** Every inline fragment that is found has the key video_url or
    display_url and a value that starts with http or https, a colon and
    two escaped slashes; so every item the inline scan adds to the list
    was built from a decoded address that starts with http:// or https://,
    has a url that starts so as well, and is a video exactly when its key
    is video_url. *)
Theorem inline_items_have_scheme html :
  (∀ m, m ∈ finditer inline_pattern html →
     (group m 1 = py "video_url" ∨ group m 1 = py "display_url") ∧
     ∃ tail,
       (group m 2 = py "http:\/\/" ++ tail ∨ group m 2 = py "https:\/\/" ++ tail) ∧
       tail ≠ [] ∧ Forall (fun c => c ≠ 34) tail) ∧
  (∀ l, assemble_media html = Ret l →
     ∃ media added,
       primary_media (extract_meta_tags html) = Ret media ∧
       l = media ++ added ∧
       Forall (fun x =>
                 (type x = py "video" ∨ type x = py "image") ∧
                 ∃ rest,
                   url_text (url x) = py "http://" ++ rest
                   ∨ url_text (url x) = py "https://" ++ rest)
         added ∧
       Forall2 (fun m x =>
                  (type x = py "video" ↔ group m 1 = py "video_url") ∧
                  ∃ c rest,
                    candidate_of (group m 2) = Ret c ∧
                    (c = py "http://" ++ rest ∨ c = py "https://" ++ rest) ∧
                    http_url c = Some (url_text (url x)))
         (finditer inline_pattern html) added).
Proof.
  assert (∀ m, m ∈ finditer inline_pattern html →
     (group m 1 = py "video_url" ∨ group m 1 = py "display_url") ∧
     ∃ tail,
       (group m 2 = py "http:\/\/" ++ tail ∨ group m 2 = py "https:\/\/" ++ tail) ∧
       tail ≠ [] ∧ Forall (fun c => c ≠ 34) tail) as Hfound.
  { intros m (s0 & rest & Hm)%scan_elem. by eapply inline_match_groups. }
  split; [exact Hfound|].
  intros l (media & items & Hmedia & Hitems & ->)%assemble_media_inv.
  exists media, items. split; [done|]. split; [done|].
  assert (Forall2 (fun m x =>
            (type x = py "video" ∨ type x = py "image") ∧
            (type x = py "video" ↔ group m 1 = py "video_url") ∧
            (∃ rest, url_text (url x) = py "http://" ++ rest
                     ∨ url_text (url x) = py "https://" ++ rest) ∧
            ∃ c rest,
              candidate_of (group m 2) = Ret c ∧
              (c = py "http://" ++ rest ∨ c = py "https://" ++ rest) ∧
              http_url c = Some (url_text (url x)))
            (finditer inline_pattern html) items) as Hall.
  { apply Forall2_same_length_lookup. split; [by eapply Forall2_length|].
    intros n m x Hm Hx.
    assert (item_of_match (og_image (extract_meta_tags html)) m = Ret x) as Hmx
      by exact (Forall2_lookup_lr _ _ _ _ _ _ Hitems Hm Hx).
    apply item_of_match_inv in Hmx as (c & u & thumb & Hc & Hu & _ & ->).
    apply validate_ret in Hu.
    destruct (Hfound m) as (Hkind & tail & Hvalue & _);
      [by eapply list_elem_of_lookup_2|].
    destruct (candidate_has_scheme tail c) as [Hhttp Hhttps].
    assert (url (inline_item thumb (group m 1) u) = u) as Hurl
      by (unfold inline_item; by destruct (str_eqb _ _)).
    rewrite Hurl. split_and!.
    - unfold inline_item. destruct (str_eqb _ _); [by left|by right].
    - unfold inline_item.
      destruct (str_eqb (group m 1) (py "video_url")) eqn:Hv; simpl.
      + apply str_eqb_true in Hv. done.
      + split; [intros [=]|]. intros Hv'. apply str_eqb_true in Hv'. congruence.
    - apply (http_url_scheme c). exact Hu.
    - destruct Hvalue as [Hv|Hv]; rewrite Hv in Hc.
      + destruct (Hhttp Hc) as [rest ->]. exists (py "http://" ++ rest), rest.
        split_and!; [by rewrite Hv|by left|done].
      + destruct (Hhttps Hc) as [rest ->]. exists (py "https://" ++ rest), rest.
        split_and!; [by rewrite Hv|by right|done]. }
  split.
  - apply Forall_forall. intros x Hx.
    apply list_elem_of_lookup in Hx as [n Hx].
    destruct (Forall2_lookup_r _ _ _ _ _ Hall Hx) as (m & _ & Htype & _ & Hscheme & _).
    done.
  - eapply Forall2_impl; [exact Hall|]. intros m x (_ & Hkind & _ & Hc). done.
Qed.

End InlineUrls.

(** * What the tag patterns put into their groups *)

Lemma den_groups_chars_only rs (u : list N) (g g' : gmap nat (list N)) :
  Forall (fun r => ∃ p, r = Chr p) rs → den_groups (seq_of rs) u g g' → g' = g.
Proof.
  intros Hrs. revert u g. induction Hrs as [|r rs [p ->] _ IH]; intros u g.
  - by intros [_ ->].
  - intros (u1 & u2 & g1 & -> & [_ ->] & Hrest)%den_groups_seq_of_cons.
    by eapply IH.
Qed.

Lemma den_groups_lit_nocase s (u : list N) (g g' : gmap nat (list N)) :
  den_groups (lit_nocase s) u g g' → g' = g.
Proof.
  apply den_groups_chars_only. apply Forall_fmap, Forall_forall.
  intros c _. by eexists.
Qed.

Lemma not_quote_true c : not_quote c = true → c ≠ 34 ∧ c ≠ 39.
Proof.
  unfold not_quote, none_of. simpl. rewrite negb_true_iff, !orb_false_iff.
  intros (H1%N.eqb_neq & H2%N.eqb_neq & _). done.
Qed.

(** The two groups of a match of a tag pattern, whichever attribute it
    asks for, are non-empty and hold no quote of either kind. *)
Lemma tag_match_groups attr (s rest : list N) (m : gmap nat (list N)) :
  re_match
    (seq_of
       [ lit_nocase "<meta"; many1 not_gt; lit_nocase attr;
         Chr quote_char; Grp 1 (many1 not_quote); Chr quote_char;
         many1 not_gt; lit_nocase "content=";
         Chr quote_char; Grp 2 (many1 not_quote); Chr quote_char;
         many not_gt; Chr (just 62) ]) s = Some (rest, m) →
  (group m 1 ≠ [] ∧ Forall (fun c => c ≠ 34 ∧ c ≠ 39) (group m 1)) ∧
  (group m 2 ≠ [] ∧ Forall (fun c => c ≠ 34 ∧ c ≠ 39) (group m 2)).
Proof.
  unfold re_match. intros (u & s' & g' & -> & Hu & [= <- <-])%exec_sound_groups.
  apply den_groups_seq_of_cons in Hu as (u1 & r1 & g1 & -> & ->%den_groups_lit_nocase & Hu).
  apply den_groups_seq_of_cons in Hu as (u2 & r2 & g2 & -> & [_ ->] & Hu).
  apply den_groups_seq_of_cons in Hu as (u3 & r3 & g3 & -> & ->%den_groups_lit_nocase & Hu).
  apply den_groups_seq_of_cons in Hu as (u4 & r4 & g4 & -> & [_ ->] & Hu).
  apply den_groups_seq_of_cons in Hu
    as (key & r5 & g5 & -> & (g5' & [(Hkey & Hklen & _) ->] & ->) & Hu).
  apply den_groups_seq_of_cons in Hu as (u6 & r6 & g6 & -> & [_ ->] & Hu).
  apply den_groups_seq_of_cons in Hu as (u7 & r7 & g7 & -> & [_ ->] & Hu).
  apply den_groups_seq_of_cons in Hu as (u8 & r8 & g8 & -> & ->%den_groups_lit_nocase & Hu).
  apply den_groups_seq_of_cons in Hu as (u9 & r9 & g9 & -> & [_ ->] & Hu).
  apply den_groups_seq_of_cons in Hu
    as (content & r10 & g10 & -> & (g10' & [(Hcontent & Hclen & _) ->] & ->) & Hu).
  apply den_groups_seq_of_cons in Hu as (u11 & r11 & g11 & -> & [_ ->] & Hu).
  apply den_groups_seq_of_cons in Hu as (u12 & r12 & g12 & -> & [_ ->] & [_ ->]).
  unfold group. rewrite lookup_insert_ne, !lookup_insert_eq by done.
  cbn [default from_option id].
  split; (split; [intros ->; simpl in *; lia|]).
  - eapply Forall_impl; [exact Hkey|]. intros c. apply not_quote_true.
  - eapply Forall_impl; [exact Hcontent|]. intros c. apply not_quote_true.
Qed.

(** Every key and every content the two scans find is non-empty and
    holds no quote of either kind; so a tag with an empty value can only
    come from a content that [unescape] empties. *)
Theorem matched_tags_are_not_empty html (key content : list N) :
  (key, content) ∈ findall meta_pattern html ++ findall name_pattern html →
  (key ≠ [] ∧ Forall (fun c => c ≠ 34 ∧ c ≠ 39) key) ∧
  (content ≠ [] ∧ Forall (fun c => c ≠ 34 ∧ c ≠ 39) content).
Proof.
  unfold findall, finditer.
  intros [(m & [= -> ->] & Hm)%list_elem_of_fmap|(m & [= -> ->] & Hm)%list_elem_of_fmap]%elem_of_app;
    apply scan_elem in Hm as (s0 & rest & Hm).
  - by apply (tag_match_groups "property=") in Hm.
  - by apply (tag_match_groups "name=") in Hm.
Qed.

(** * Properties of the diagnostic endpoint *)

Section DiagnosticsProperties.

Import Diagnostics.

(** The two fields about the environment say whether the variable is set
    to a non-empty value, whatever the import did: what the database
    branch stores in them, the name of the database included, is
    overwritten. *)
Theorem environment_fields_overwrite imported getenv :
  database_url (test_database imported getenv)
    = Some (if truthy_opt (getenv "DATABASE_URL"%string)
            then check_mark ++ py " Set" else cross_mark ++ py " Not Set") ∧
  database_name (test_database imported getenv)
    = Some (if truthy_opt (getenv "DATABASE_NAME"%string)
            then check_mark ++ py " Set" else cross_mark ++ py " Not Set").
Proof. done. Qed.

(** Line 60 stores a value unless reading the attribute raises, be it
    inside [hasattr] or after it. *)
Lemma name_or_default_cases db :
  (∀ e, name_or_default db = inl e ↔
     has_name db = inl e ∨ (has_name db = inr true ∧ name db = inl e)) ∧
  (∀ v, name_or_default db = inr v ↔
     (has_name db = inr false ∧ v = check_mark ++ py " Connected")
     ∨ (has_name db = inr true ∧ name db = inr v)).
Proof.
  unfold name_or_default.
  destruct (has_name db) as [e0|[|]]; split; intros x; split.
  - intros [= <-]. by left.
  - by intros [[= <-]|[[=] _]].
  - done.
  - by intros [[[=] _]|[[=] _]].
  - intros Hx. right. done.
  - by intros [[=]|[_ Hx]].
  - intros Hx. right. done.
  - by intros [[[=] _]|[_ Hx]].
  - done.
  - by intros [[=]|[[=] _]].
  - intros [= <-]. by left.
  - by intros [[_ ->]|[[=] _]].
Qed.

Lemma test_database_cases imported getenv :
  let r := test_database imported getenv in
  match imported with
  | Imported (Some db) =>
      match name_or_default db with
      | inl e =>
          database r = cross_mark ++ py " Error: " ++ take 50 e ∧
          connection_status r = py "Not Connected" ∧ collections r = []
      | inr _ =>
          connection_status r = py "Connected" ∧
          match list_collection_names db with
          | inr names =>
              database r = check_mark ++ py " Connected & Working" ∧
              collections r = take 10 names
          | inl e =>
              database r = warning_sign ++ py "  Connected but Error: " ++ take 50 e ∧
              collections r = []
          end
      end
  | Imported None =>
      database r = warning_sign ++ py "  Available but not initialized" ∧
      connection_status r = py "Not Connected" ∧ collections r = []
  | ImportError =>
      database r
        = cross_mark ++ py " Database module not found (run enable-database first)" ∧
      connection_status r = py "Not Connected" ∧ collections r = []
  | ImportFailed e =>
      database r = cross_mark ++ py " Error: " ++ take 50 e ∧
      connection_status r = py "Not Connected" ∧ collections r = []
  end.
Proof.
  cbv zeta. unfold test_database, probe_database.
  destruct imported as [|e|[db|]]; try done.
  destruct (name_or_default db) as [e|v]; [done|].
  by destruct (list_collection_names db).
Qed.

(** The collections reported are the first ten of those the database
    lists, at most ten, and none unless the name could be stored and the
    listing succeeded. *)
Theorem collections_first_ten imported getenv :
  (length (collections (test_database imported getenv)) ≤ 10)%nat ∧
  (∀ db v names,
     imported = Imported (Some db) → name_or_default db = inr v →
     list_collection_names db = inr names →
     collections (test_database imported getenv) = take 10 names) ∧
  ((∀ db v names,
      imported = Imported (Some db) → name_or_default db = inr v →
      list_collection_names db ≠ inr names) →
   collections (test_database imported getenv) = []).
Proof.
  pose proof (test_database_cases imported getenv) as H. cbv zeta in H.
  destruct imported as [|e|[db|]].
  - destruct H as (_ & _ & ->). split_and!; [simpl; lia|done|done].
  - destruct H as (_ & _ & ->). split_and!; [simpl; lia|done|done].
  - destruct (name_or_default db) as [e|v] eqn:Hname.
    + destruct H as (_ & _ & ->).
      split_and!; [simpl; lia|intros ? ? ? [= <-]; congruence|done].
    + destruct H as [_ H].
      destruct (list_collection_names db) as [e|names] eqn:Hlist;
        destruct H as [_ ->].
      * split_and!; [simpl; lia|intros ? ? ? [= <-]; congruence|done].
      * split_and!.
        -- rewrite length_take. lia.
        -- intros ? ? ? [= <-] _ Hn. rewrite Hlist in Hn. by injection Hn as <-.
        -- intros Hnone. exfalso. by eapply Hnone.
  - destruct H as (_ & _ & ->). split_and!; [simpl; lia|done|done].
Qed.



(** The status is Connected exactly when the import bound a database
    object and line 60 could store a name for it, also when the listing
    then fails; it stays Not Connected otherwise, also for an object whose
    attribute [name] cannot be read. The database is reported as working
    exactly when, after that, the listing succeeded. *)
Theorem connection_status_follows_import imported getenv :
  (connection_status (test_database imported getenv) = py "Connected" ↔
   ∃ db v, imported = Imported (Some db) ∧ name_or_default db = inr v) ∧
  (connection_status (test_database imported getenv) = py "Not Connected" ↔
   ¬ ∃ db v, imported = Imported (Some db) ∧ name_or_default db = inr v) ∧
  (database (test_database imported getenv) = check_mark ++ py " Connected & Working" ↔
   ∃ db v names,
     imported = Imported (Some db) ∧ name_or_default db = inr v ∧
     list_collection_names db = inr names) ∧
  (∀ db e,
     imported = Imported (Some db) →
     has_name db = inl e ∨ (has_name db = inr true ∧ name db = inl e) →
     connection_status (test_database imported getenv) = py "Not Connected").
Proof.
  pose proof (test_database_cases imported getenv) as H. cbv zeta in H.
  assert (py "Connected" ≠ py "Not Connected") as Hne by discriminate.
  assert (∀ e : list N, cross_mark ++ py " Error: " ++ take 50 e
            ≠ check_mark ++ py " Connected & Working") as Hne1 by discriminate.
  assert (∀ e : list N, warning_sign ++ py "  Connected but Error: " ++ take 50 e
            ≠ check_mark ++ py " Connected & Working") as Hne2 by discriminate.
  destruct imported as [|e|[db|]].
  - destruct H as (-> & -> & _). split_and!.
    + split; [by intros ?%symmetry|by intros (? & ? & ? & ?)].
    + split; [by intros _ (? & ? & ? & ?)|done].
    + split; [discriminate|by intros (? & ? & ? & ? & ?)].
    + done.
  - destruct H as (-> & -> & _). split_and!.
    + split; [by intros ?%symmetry|by intros (? & ? & ? & ?)].
    + split; [by intros _ (? & ? & ? & ?)|done].
    + split; [intros H'; by destruct (Hne1 _ H')|by intros (? & ? & ? & ? & ?)].
    + done.
  - destruct (name_or_default db) as [e|v] eqn:Hname.
    + destruct H as (-> & -> & _). split_and!.
      * split; [by intros ?%symmetry|].
        intros (? & ? & [= <-] & ?). congruence.
      * split; [|done]. intros _ (? & ? & [= <-] & ?). congruence.
      * split; [intros H'; by destruct (Hne1 _ H')|].
        intros (? & ? & ? & [= <-] & ? & ?). congruence.
      * done.
    + destruct H as [-> H]. split_and!.
      * split; [intros _; by exists db, v|done].
      * split; [done|]. intros Hno. exfalso. apply Hno. by exists db, v.
      * destruct (list_collection_names db) as [e|names] eqn:Hlist;
          destruct H as [-> _].
        -- split; [intros H'; by destruct (Hne2 _ H')|].
           intros (? & ? & ? & [= <-] & ? & ?). congruence.
        -- split; [intros _; by exists db, v, names|done].
      * intros db0 e [= <-] Hbad.
        apply (proj1 (name_or_default_cases db) e) in Hbad. congruence.
  - destruct H as (-> & -> & _). split_and!.
    + split; [by intros ?%symmetry|by intros (? & ? & ? & ?)].
    + split; [by intros _ (? & ? & ? & ?)|done].
    + split; [discriminate|by intros (? & ? & ? & ? & ?)].
    + done.
Qed.

End DiagnosticsProperties.

(** * The properties on the pages of the specification

    The library is [CPython.ascii_page] from here on. *)

#[local] Existing Instance CPython.ascii_page.

(** The first example of section 8: the video of the tags comes first,
    with the image of the tags as thumbnail. *)
Lemma primary_video_is_first_example :
  primary_media (extract_meta_tags Page.video_and_thumb)
    = Ret [video_item (Url "https://x/video.mp4") (Some (Url "https://x/thumb.jpg"))] ∧
  ∃ added,
    assemble_media Page.video_and_thumb
      = Ret (video_item (Url "https://x/video.mp4") (Some (Url "https://x/thumb.jpg"))
               :: added).
Proof.
  destruct (primary_video_is_first Page.video_and_thumb (py "https://x/video.mp4"))
    as [Hvalid _].
  - left. vm_compute. reflexivity.
  - discriminate.
  - destruct (Hvalid (Url "https://x/video.mp4") (Some (Url "https://x/thumb.jpg")))
      as (Hfirst & _ & Hreturns & _).
    + vm_compute. reflexivity.
    + vm_compute. reflexivity.
    + split; [exact Hfirst|]. apply Hreturns.
      replace (finditer inline_pattern Page.video_and_thumb)
        with (@nil (gmap nat (list N))) by (vm_compute; reflexivity).
      constructor.
Defined.

(** C1 as stated fails. The tags of the first page hold no og:video and
    hold twitter:player:stream, with the empty string as value, and the
    assembled list starts with an image. The og:video of the second page
    is an address without host, and that of the third comes with a
    twitter:image whose value is the empty string: no list is assembled,
    the construction of the item raises. The og:video of the fourth page
    names its host in upper case, and the url of the item is not the value
    of the tag. *)
Lemma video_tag_value_not_listed :
  (extract_meta_tags Page.empty_stream !! py "og:video" = None ∧
   extract_meta_tags Page.empty_stream !! py "twitter:player:stream" = Some [] ∧
   assemble_media Page.empty_stream = Ret [image_item (Url "https://x/thumb.jpg")]) ∧
  (extract_meta_tags Page.relative_video !! py "og:video"
     = Some (py "/media/video.mp4") ∧
   assemble_media Page.relative_video = Raise ValidationError) ∧
  (extract_meta_tags Page.empty_thumbnail !! py "og:video"
     = Some (py "https://x/video.mp4") ∧
   extract_meta_tags Page.empty_thumbnail !! py "og:image" = None ∧
   extract_meta_tags Page.empty_thumbnail !! py "twitter:image" = Some [] ∧
   assemble_media Page.empty_thumbnail = Raise ValidationError) ∧
  (extract_meta_tags Page.upper_case_host !! py "og:video"
     = Some (py "https://X/video.mp4") ∧
   assemble_media Page.upper_case_host
     = Ret [video_item (Url "https://x/video.mp4") (Some (Url "https://x/thumb.jpg"))] ∧
   py "https://x/video.mp4" ≠ py "https://X/video.mp4").
Proof. vm_compute. repeat split; discriminate. Qed.

(** C2: the test of lines 145 and 148 compares a URL object with a
    string, which are never equal, so that no turn of the loop, whatever
    the library, leaves the list as it is: a turn that returns has
    appended an item. The page with the same display_url twice yields two
    items with that url, and the page with a value that repeats the url
    of the tags and a value under both keys yields five. *)
Theorem repeated_value_listed_again :
  (∀ (lib : PyLib) og media m media',
     @inline_step lib og media m = Ret media' →
     media' ≠ media ∧ ∃ x, media' = media ++ [x]) ∧
  finditer inline_pattern Page.repeated_display
    = [ <[2%nat := py "https:\/\/x\/d.jpg"]> (<[1%nat := py "display_url"]> ∅);
        <[2%nat := py "https:\/\/x\/d.jpg"]> (<[1%nat := py "display_url"]> ∅) ] ∧
  assemble_media Page.repeated_display
    = Ret [image_item (Url "https://x/d.jpg"); image_item (Url "https://x/d.jpg")] ∧
  assemble_media Page.mixed
    = Ret [video_item (Url "https://x/video.mp4") (Some (Url "https://x/thumb.jpg"));
           video_item (Url "https://x/video.mp4") (Some (Url "https://x/thumb.jpg"));
           image_item (Url "https://x/d.jpg?a=1&b=2");
           video_item (Url "https://x/d.jpg?a=1&b=2") (Some (Url "https://x/thumb.jpg"));
           video_item (Url "https://x/v2.mp4") (Some (Url "https://x/thumb.jpg"))].
Proof.
  split_and!.
  - intros lib og media m media'. rewrite inline_step_appends.
    destruct (item_of_match og m) as [x|e]; [|done]. rewrite res_bind_ret.
    intros [= <-]. split; [|by exists x].
    intros Heq. apply (f_equal length) in Heq. rewrite length_app in Heq.
    simpl in Heq. lia.
  - vm_compute. reflexivity.
  - vm_compute. reflexivity.
  - vm_compute. reflexivity.
Qed.

(** The last example of section 8: a 404 of the site is passed on. *)
Lemma upstream_404_propagated :
  instagram_inspect (Page.site 404 Page.no_media) Page.post
    = (HTTPException 404 "Instagram responded with an error.", [get_page Page.post_url]).
Proof.
  destruct (upstream_status_propagated (Page.site 404 Page.no_media) Page.post
              404 Page.no_media) as (Hother & _ & _).
  - vm_compute. reflexivity.
  - reflexivity.
  - apply Hother. discriminate.
Defined.

(** C3 as stated fails: 204 is a 2xx status and the page would yield a
    list, yet the handler answers with the error 204. *)
Lemma status_204_not_parsed :
  (200 ≤ 204 < 300)%Z ∧
  url_accepted Page.post_url = true ∧
  parse_page Page.video_and_thumb
    = Returned [video_item (Url "https://x/video.mp4") (Some (Url "https://x/thumb.jpg"))] ∧
  instagram_inspect (Page.site 204 Page.video_and_thumb) Page.post
    = (HTTPException 204 "Instagram responded with an error.", [get_page Page.post_url]).
Proof. split; [lia|]. vm_compute. repeat split. Qed.

(** A scheme and a host in upper case are accepted: the request goes to
    the validated text, which has them in lower case. *)
Lemma upper_case_host_accepted :
  http_url (py "HTTPS://WWW.INSTAGRAM.COM/reel/abc")
    = Some (py "https://www.instagram.com/reel/abc") ∧
  (post_instagram_inspect (Page.site 200 Page.only_image)
     (py "HTTPS://WWW.INSTAGRAM.COM/reel/abc")).2
    = [get_page (py "https://www.instagram.com/reel/abc")].
Proof.
  split; [vm_compute; reflexivity|].
  destruct url_validation_exact_case as (_ & _ & Hvalidated).
  destruct (Hvalidated (Page.site 200 Page.only_image)
              (py "HTTPS://WWW.INSTAGRAM.COM/reel/abc")
              (py "https://www.instagram.com/reel/abc"))
    as (_ & _ & Haccepted).
  - vm_compute. reflexivity.
  - apply Haccepted. vm_compute. reflexivity.
Defined.

(** C4 as stated fails. With its path keyword in upper case the first
    string has the shape of the specification when case is ignored, and
    it is rejected with the error 400. The second string has the shape
    with the scheme omitted, and the request model refuses it: the handler
    does not run. *)
Lemma upper_case_path_rejected :
  Spec.url_shape true (py "https://www.instagram.com/P/abc/") = true ∧
  post_instagram_inspect (Page.site 200 Page.only_image)
    (py "https://www.instagram.com/P/abc/")
    = (HTTPException 400 "Please provide a valid Instagram post/reel URL.", []) ∧
  Spec.url_shape true (py "instagram.com/p/abc/") = true ∧
  post_instagram_inspect (Page.site 200 Page.only_image) (py "instagram.com/p/abc/")
    = (RequestValidationError, []).
Proof. vm_compute. repeat split. Qed.

(** The examples of section 8 for the validation. *)
Lemma invalid_url_rejected_examples :
  url_accepted (py "https://www.instagram.com/p/Cx_9-a/") = true ∧
  (post_instagram_inspect (Page.site 200 Page.only_image)
     (py "https://www.instagram.com/p/Cx_9-a/")).2
    = [get_page (py "https://www.instagram.com/p/Cx_9-a/")] ∧
  post_instagram_inspect (Page.site 200 Page.video_and_thumb)
    (py "https://example.com/p/abc")
    = (HTTPException 400 "Please provide a valid Instagram post/reel URL.", []) ∧
  post_instagram_inspect (Page.site 200 Page.video_and_thumb)
    (py "https://instagram.com/notp/abc")
    = (HTTPException 400 "Please provide a valid Instagram post/reel URL.", []).
Proof.
  destruct invalid_url_rejected_before_fetch as (Haccept & _ & Hreject & _).
  destruct (Haccept (py "Cx_9-a")) as [Hpattern Hroute];
    [discriminate|repeat constructor|].
  split_and!.
  - exact Hpattern.
  - apply Hroute. vm_compute. reflexivity.
  - apply (Hreject _ _ (py "https://example.com/p/abc"));
      [vm_compute; reflexivity|left; vm_compute; reflexivity].
  - apply (Hreject _ _ (py "https://instagram.com/notp/abc"));
      [vm_compute; reflexivity|left; vm_compute; reflexivity].
Defined.

(** C5 as stated fails: for the empty string, which does not have the
    shape, the answer is not the error 400 of the handler; the request
    model refuses the string and the handler does not run. *)
Lemma empty_string_refused_by_request_model :
  Spec.url_shape true [] = false ∧
  http_url [] = None ∧
  post_instagram_inspect (Page.site 200 Page.video_and_thumb) []
    = (RequestValidationError, []) ∧
  post_instagram_inspect (Page.site 200 Page.video_and_thumb) []
    ≠ (HTTPException 400 "Please provide a valid Instagram post/reel URL.", []).
Proof. vm_compute. repeat split. discriminate. Qed.


(** The key og:image is matched twice as a property, the second time in
    upper case, and once as a name: the value of the name match stays. *)
Lemma last_meta_tag_wins_example :
  findall meta_pattern Page.overwritten
    = [(py "og:image", py "https://x/a.jpg"); (py "OG:Image", py "https://x/b.jpg")] ∧
  findall name_pattern Page.overwritten = [(py "og:image", py "https://x/c.jpg")] ∧
  extract_meta_tags Page.overwritten !! py "og:image" = Some (py "https://x/c.jpg").
Proof.
  split; [vm_compute; reflexivity|]. split; [vm_compute; reflexivity|].
  destruct (last_meta_tag_wins Page.overwritten) as (_ & _ & Hname & _).
  apply (Hname [] (py "og:image") (py "https://x/c.jpg") []).
  - vm_compute. reflexivity.
  - constructor.
Defined.

(** The seventh example of section 8: nothing to extract gives 422. *)
Lemma no_media_example :
  instagram_inspect (Page.site 200 Page.no_media) Page.post
    = (HTTPException 422
         "Could not extract media from this URL. It may be private or blocked.",
       [get_page Page.post_url]) ∧
  (instagram_inspect (Page.site 200 Page.no_media) Page.post).1
    = HTTPException 422 no_media_detail.
Proof.
  split; [vm_compute; reflexivity|].
  apply (proj1 (no_media_iff_empty_list (Page.site 200 Page.no_media) Page.post)).
  split; [vm_compute; reflexivity|].
  exists Page.no_media. split; [reflexivity|vm_compute; reflexivity].
Defined.

(** The fourth example of section 8. *)
Lemma primary_image_alone_example :
  primary_media (extract_meta_tags Page.only_image)
    = Ret [image_item (Url "https://x/pic.jpg")] ∧
  assemble_media Page.only_image = Ret [image_item (Url "https://x/pic.jpg")].
Proof.
  destruct (primary_image_alone Page.only_image (py "https://x/pic.jpg"))
    as [Hprimary Hpage].
  split.
  - destruct Hprimary as [Hvalid _].
    + left. vm_compute. reflexivity.
    + discriminate.
    + vm_compute. reflexivity.
    + vm_compute. reflexivity.
    + apply Hvalid. vm_compute. reflexivity.
  - apply Hpage; vm_compute; reflexivity.
Defined.

(** C9 as stated fails. The tags of the first page hold twitter:image,
    with the empty string as value, and no video tag, and the list is
    empty. The og:image of the second page is an address without host:
    no list is assembled, the construction of the item raises. The
    og:image of the third page names its host in upper case, and the url
    and the thumbnail of the item are not the value of the tag. *)
Lemma image_tag_value_not_listed :
  (extract_meta_tags Page.empty_image !! py "twitter:image" = Some [] ∧
   extract_meta_tags Page.empty_image !! py "og:video" = None ∧
   extract_meta_tags Page.empty_image !! py "twitter:player:stream" = None ∧
   primary_media (extract_meta_tags Page.empty_image) = Ret [] ∧
   assemble_media Page.empty_image = Ret []) ∧
  (extract_meta_tags Page.relative_image !! py "og:image"
     = Some (py "/relative.jpg") ∧
   extract_meta_tags Page.relative_image !! py "og:video" = None ∧
   extract_meta_tags Page.relative_image !! py "twitter:player:stream" = None ∧
   primary_media (extract_meta_tags Page.relative_image) = Raise ValidationError ∧
   assemble_media Page.relative_image = Raise ValidationError) ∧
  (extract_meta_tags Page.upper_case_image !! py "og:image"
     = Some (py "https://X/pic.jpg") ∧
   assemble_media Page.upper_case_image = Ret [image_item (Url "https://x/pic.jpg")] ∧
   py "https://x/pic.jpg" ≠ py "https://X/pic.jpg").
Proof. vm_compute. repeat split; discriminate. Qed.

(** The items returned for a page with tags and inline values. *)
Lemma returned_items_shape_example :
  (instagram_inspect (Page.site 200 Page.mixed) Page.post).1
    = Returned
        [video_item (Url "https://x/video.mp4") (Some (Url "https://x/thumb.jpg"));
         video_item (Url "https://x/video.mp4") (Some (Url "https://x/thumb.jpg"));
         image_item (Url "https://x/d.jpg?a=1&b=2");
         video_item (Url "https://x/d.jpg?a=1&b=2") (Some (Url "https://x/thumb.jpg"));
         video_item (Url "https://x/v2.mp4") (Some (Url "https://x/thumb.jpg"))] ∧
  ∃ html,
    Page.site 200 Page.mixed (get_page Page.post_url) = Response 200 html ∧
    Forall (fun x =>
              (type x = py "video" ∨ type x = py "image") ∧
              (type x = py "image" → thumbnail x = Some (url x)) ∧
              (type x = py "video" →
               validate_optional
                 (py_or (extract_meta_tags html !! py "og:image")
                        (extract_meta_tags html !! py "twitter:image"))
                 = Ret (thumbnail x)))
      [video_item (Url "https://x/video.mp4") (Some (Url "https://x/thumb.jpg"));
       video_item (Url "https://x/video.mp4") (Some (Url "https://x/thumb.jpg"));
       image_item (Url "https://x/d.jpg?a=1&b=2");
       video_item (Url "https://x/d.jpg?a=1&b=2") (Some (Url "https://x/thumb.jpg"));
       video_item (Url "https://x/v2.mp4") (Some (Url "https://x/thumb.jpg"))].
Proof.
  assert ((instagram_inspect (Page.site 200 Page.mixed) Page.post).1
    = Returned
        [video_item (Url "https://x/video.mp4") (Some (Url "https://x/thumb.jpg"));
         video_item (Url "https://x/video.mp4") (Some (Url "https://x/thumb.jpg"));
         image_item (Url "https://x/d.jpg?a=1&b=2");
         video_item (Url "https://x/d.jpg?a=1&b=2") (Some (Url "https://x/thumb.jpg"));
         video_item (Url "https://x/v2.mp4") (Some (Url "https://x/thumb.jpg"))])
    as Hret by (vm_compute; reflexivity).
  split; [exact Hret|].
  destruct (returned_items_shape _ _ _ Hret) as (html & Hnet & Hshape & _).
  exists html. split; [exact Hnet|].
  eapply Forall_impl; [exact Hshape|].
  intros x (Htype & Himage & Hvideo). split_and!; [done|done|].
  intros Hx. by destruct (Hvideo Hx).
Defined.

(** C10 as stated fails: the og:image of this page names its host in
    upper case, and the thumbnail of the video that the handler returns is
    the address with the host in lower case, not the value of the tag. *)
Lemma thumbnail_is_not_the_tag_value :
  extract_meta_tags Page.upper_case_host !! py "og:image"
    = Some (py "https://X/thumb.jpg") ∧
  (instagram_inspect (Page.site 200 Page.upper_case_host) Page.post).1
    = Returned
        [video_item (Url "https://x/video.mp4") (Some (Url "https://x/thumb.jpg"))] ∧
  py "https://x/thumb.jpg" ≠ py "https://X/thumb.jpg".
Proof. vm_compute. repeat split. discriminate. Qed.

(** * The further properties on examples *)

(** A site that cannot be reached. *)
Lemma transport_failure_example :
  instagram_inspect (fun _ => RequestException) Page.post
    = (HTTPException 502 "Failed to fetch the Instagram page.", [get_page Page.post_url]).
Proof.
  apply (transport_failure_is_502 _ Page.post); [vm_compute; reflexivity|reflexivity].
Defined.

(** The error for a 404 of the site. *)
Lemma error_is_one_of_four_example :
  (404 ≠ 200)%Z ∧
  ∃ text, Page.site 404 Page.no_media (get_page Page.post_url) = Response 404 text.
Proof.
  destruct (error_is_one_of_four (Page.site 404 Page.no_media) Page.post
              404 upstream_error_detail) as [Hne Hcase].
  - vm_compute. reflexivity.
  - split; [exact Hne|].
    destruct Hcase as [(H & _)|[(H & _)|[(_ & Htext)|(H & _)]]];
      [discriminate H|discriminate H|exact Htext|discriminate H].
Defined.

(** A query string after an accepted URL. *)
Lemma url_accepted_with_suffix_example :
  url_accepted (Page.post_url ++ py "?utm_source=ig_web_copy_link") = true.
Proof.
  apply url_accepted_with_suffix. vm_compute. reflexivity.
Defined.

(** The tag of the page with three matches of the key og:image. *)
Lemma tag_comes_from_a_match_example :
  ∃ key content,
    (key, content) ∈ findall meta_pattern Page.overwritten
                       ++ findall name_pattern Page.overwritten ∧
    py "og:image" = lower key ∧ py "https://x/c.jpg" = unescape content.
Proof.
  apply (tag_comes_from_a_match Page.overwritten). vm_compute. reflexivity.
Defined.

(** The page with four inline fragments after the video of its tags has
    five items. *)
Lemma assembled_urls_in_page_order_example :
  ∃ media cs,
    primary_media (extract_meta_tags Page.mixed) = Ret media ∧
    (length media ≤ 1)%nat ∧
    Forall2 (fun m c => ∃ d, candidate_of (group m 2) = Ret d ∧ http_url d = Some c)
      (finditer inline_pattern Page.mixed) cs ∧
    [py "https://x/video.mp4"; py "https://x/video.mp4"; py "https://x/d.jpg?a=1&b=2";
     py "https://x/d.jpg?a=1&b=2"; py "https://x/v2.mp4"]
      = ((url_text ∘ url) <$> media) ++ cs ∧
    5%nat = (length media + length (finditer inline_pattern Page.mixed))%nat.
Proof.
  apply (assembled_urls_in_page_order Page.mixed
           [video_item (Url "https://x/video.mp4") (Some (Url "https://x/thumb.jpg"));
            video_item (Url "https://x/video.mp4") (Some (Url "https://x/thumb.jpg"));
            image_item (Url "https://x/d.jpg?a=1&b=2");
            video_item (Url "https://x/d.jpg?a=1&b=2") (Some (Url "https://x/thumb.jpg"));
            video_item (Url "https://x/v2.mp4") (Some (Url "https://x/thumb.jpg"))]).
  vm_compute. reflexivity.
Defined.

(** An address with a letter outside ASCII comes back as its bytes. *)
Lemma escaped_address_decodes_example :
  candidate_of (py "https:\/\/x\/caf" ++ [0xe9])
    = Ret (py "https://x/caf" ++ [0xc3; 0xa9]) ∧
  candidate_of (py "https:\/\/x\/cafe") = Ret (py "https://x/cafe").
Proof.
  split.
  - apply (escaped_address_decodes (py "https://x/caf" ++ [0xe9])).
    + repeat (constructor; [discriminate|]). constructor.
    + vm_compute. reflexivity.
  - apply (escaped_address_decodes (py "https://x/cafe")).
    + repeat (constructor; [discriminate|]). constructor.
    + vm_compute. reflexivity.
Defined.

(** An escaped quote inside an inline value makes the handler die. *)
Lemma trailing_backslash_example :
  instagram_inspect (Page.site 200 MorePages.quoted_caption) Page.post
    = (Uncaught UnicodeDecodeError, [get_page Page.post_url]) ∧
  parse_page MorePages.quoted_caption = Uncaught UnicodeDecodeError.
Proof.
  split; [vm_compute; reflexivity|].
  destruct (trailing_backslash_raises (py "https://x/a.jpg?t=") (py "https://x/a.jpg?t="))
    as [_ Hpage].
  - repeat (constructor; [discriminate|]). constructor.
  - vm_compute. reflexivity.
  - destruct (finditer inline_pattern MorePages.quoted_caption) as [|m after] eqn:Hms;
      [vm_compute in Hms; discriminate Hms|].
    assert (match finditer inline_pattern MorePages.quoted_caption with
            | first :: _ => group first 2
            | [] => []
            end = py "https:\/\/x\/a.jpg?t=\") as Hgroup
      by (vm_compute; reflexivity).
    rewrite Hms in Hgroup.
    destruct (Hpage _ m after Hms Hgroup) as [Hcodec _].
    apply Hcodec. exists [image_item (Url "https://x/pic.jpg")].
    vm_compute. reflexivity.
Defined.

(** Ten of twelve collections are reported. *)
Lemma collections_first_ten_example :
  Diagnostics.collections
    (Diagnostics.test_database
       (Diagnostics.Imported (Some MorePages.twelve_collections)) (fun _ => None))
    = (fun c => [c]) <$> py "abcdefghij".
Proof.
  destruct (collections_first_ten
              (Diagnostics.Imported (Some MorePages.twelve_collections)) (fun _ => None))
    as (_ & Hten & _).
  exact (Hten MorePages.twelve_collections (py "prod")
           ((fun c => [c]) <$> py "abcdefghijkl") eq_refl eq_refl eq_refl).
Defined.

(** A database object whose name cannot be read is reported as not
    connected, with the text of the exception. *)
Lemma unreadable_name_example :
  Diagnostics.connection_status
    (Diagnostics.test_database
       (Diagnostics.Imported (Some MorePages.broken_name)) (fun _ => None))
    = py "Not Connected" ∧
  Diagnostics.database
    (Diagnostics.test_database
       (Diagnostics.Imported (Some MorePages.broken_name)) (fun _ => None))
    = Diagnostics.cross_mark ++ py " Error: connection closed".
Proof.
  split; [|vm_compute; reflexivity].
  destruct (connection_status_follows_import
              (Diagnostics.Imported (Some MorePages.broken_name)) (fun _ => None))
    as (_ & _ & _ & Hbroken).
  apply (Hbroken MorePages.broken_name (py "connection closed")); [reflexivity|].
  left. reflexivity.
Defined.

(** The first match of the page with three matches. *)
Lemma matched_tags_are_not_empty_example :
  (py "og:image" ≠ [] ∧ Forall (fun c => c ≠ 34 ∧ c ≠ 39) (py "og:image")) ∧
  (py "https://x/a.jpg" ≠ [] ∧
   Forall (fun c => c ≠ 34 ∧ c ≠ 39) (py "https://x/a.jpg")).
Proof.
  apply (matched_tags_are_not_empty Page.overwritten).
  replace (findall meta_pattern Page.overwritten)
    with [(py "og:image", py "https://x/a.jpg"); (py "OG:Image", py "https://x/b.jpg")]
    by (vm_compute; reflexivity).
  constructor.
Defined.
